(** * CBCReader: the normalisation and aggregation pipeline of the CBC feed scraper

    A shallow embedding of [scraper/utils.py] and [scraper/main.py] and the
    properties of the pipeline: summariser bounds, bias heuristics, recency
    filtering, deduplication and determinism of the snapshot.

    Conventions of the embedding.
    - A Python [str] is a [list ascii]: a sequence of code points in the range
      U+0000..U+00FF.  On that range [str.lower], [str.strip] and the regex
      classes [\w] and [\b] are written out exactly as CPython defines them.
    - Python [int]s are [Z]; [len] returns a [Z]; slices follow Python for
      negative bounds.
    - A [dict] used as a mapping (a feed entry) is a [gmap]; the [set] of
      deduplication keys is a [gset].
    - Library calls whose tables are not part of this repository (NLTK's
      sentence tokenizer, [html.unescape], [hashlib.sha1], dateutil, VADER,
      readability) are operations of type classes, so every theorem holds for
      any behaviour of those libraries.
    - An exception is a [None] result; [try]/[except] is a [match] on it. *)

From Stdlib Require Import ZArith QArith Ascii String List Lia Bool.
From stdpp Require Import base option list gmap sets strings sorting.

Close Scope Q_scope.
Local Open Scope Z_scope.

(* ===================================================================== *)
(** * Python strings and slices *)
(* ===================================================================== *)

Module Py.

Definition str := list ascii.

(** String literals of the source are written as Rocq string literals. *)
Definition lit (s : string) : str := list_ascii_of_string s.

Definition ord (c : ascii) : Z := Z.of_N (N_of_ascii c).

(** [len(s)] *)
Definition len {A} (l : list A) : Z := Z.of_nat (length l).

(** Truth value of a string: [if s:] holds for non-empty strings. *)
Definition truthy (s : str) : bool :=
  match s with [] => false | _ :: _ => true end.

(** [c.isspace()] for a code point below U+0100: the ASCII controls
    TAB..CR and FS..US, the space, NEL (U+0085) and NBSP (U+00A0). *)
Definition isspace (c : ascii) : bool :=
  let n := ord c in
  ((9 <=? n) && (n <=? 13)) || ((28 <=? n) && (n <=? 32))
  || (n =? 133) || (n =? 160).

(** [c.lower()] for a code point below U+0100: [A-Z] and the Latin-1
    capitals U+00C0..U+00DE (the multiplication sign U+00D7 apart) move up
    by 32, everything else is unchanged. *)
Definition lower_char (c : ascii) : ascii :=
  let n := ord c in
  if ((65 <=? n) && (n <=? 90))
     || ((192 <=? n) && (n <=? 222) && negb (n =? 215))
  then ascii_of_N (Z.to_N (n + 32)) else c.

(** [s.lower()] *)
Definition lower (s : str) : str := map lower_char s.

Fixpoint dropwhile {A} (p : A -> bool) (l : list A) : list A :=
  match l with
  | [] => []
  | x :: r => if p x then dropwhile p r else l
  end.

Fixpoint takewhile {A} (p : A -> bool) (l : list A) : list A :=
  match l with
  | [] => []
  | x :: r => if p x then x :: takewhile p r else []
  end.

(** [s.split(c)] for a one-character separator; [cur] holds the piece
    being read, last character first. *)
Fixpoint split_on (c : ascii) (cur : str) (s : str) : list str :=
  match s with
  | [] => [rev cur]
  | x :: r => if bool_decide (x = c) then rev cur :: split_on c [] r
              else split_on c (x :: cur) r
  end.

(** [s.lstrip()], [s.rstrip()], [s.strip()]: the white space at the left
    end, at the right end, at both ends is removed. *)
Definition lstrip (s : str) : str := dropwhile isspace s.

Fixpoint rstrip (s : str) : str :=
  match s with
  | [] => []
  | c :: r =>
      match rstrip r with
      | [] => if isspace c then [] else [c]
      | r' => c :: r'
      end
  end.

Definition strip (s : str) : str := rstrip (lstrip s).

(** A string that neither begins nor ends with white space. *)
Definition no_outer_space (s : str) : Prop :=
  from_option isspace false (head s) = false
  ∧ from_option isspace false (last s) = false.

(** [l[:n]]: the first [n] items for [n >= 0], all but the last [-n] items
    for [n < 0]. *)
Definition slice_to {A} (l : list A) (n : Z) : list A :=
  if 0 <=? n then take (Z.to_nat n) l
  else take (length l - Z.to_nat (- n))%nat l.

(** [sep.join(parts)] *)
Fixpoint join (sep : str) (parts : list str) : str :=
  match parts with
  | [] => []
  | [p] => p
  | p :: rest => p ++ sep ++ join sep rest
  end.

Fixpoint starts_with (p s : str) : bool :=
  match p, s with
  | [], _ => true
  | _ :: _, [] => false
  | a :: p', b :: s' => bool_decide (a = b) && starts_with p' s'
  end.

(** [needle in hay] on strings. *)
Fixpoint contains (needle hay : str) : bool :=
  starts_with needle hay ||
  match hay with
  | [] => false
  | _ :: hay' => contains needle hay'
  end.

(** [a < b] on strings: lexicographic by code point. *)
Fixpoint str_lt (a b : str) : bool :=
  match a, b with
  | _, [] => false
  | [], _ :: _ => true
  | x :: a', y :: b' =>
      (ord x <? ord y) || ((ord x =? ord y) && str_lt a' b')
  end.

(** [s.encode("utf-8")] for code points below U+0100: one byte below
    U+0080, two bytes from there on. *)
Definition utf8_char (c : ascii) : list Byte.byte :=
  let n := ord c in
  if n <? 128 then [byte_of_ascii c]
  else [byte_of_ascii (ascii_of_N (Z.to_N (192 + n / 64)));
        byte_of_ascii (ascii_of_N (Z.to_N (128 + n mod 64)))].

Definition encode_utf8 (s : str) : list Byte.byte := flat_map utf8_char s.

End Py.

Import Py.
Coercion Py.lit : string >-> Py.str.

(* ===================================================================== *)
(** * scraper/utils.py *)
(* ===================================================================== *)

Module Utils.

(** ** The libraries [utils.py] imports *)

(** [html.unescape] and [nltk.tokenize.sent_tokenize]. *)
Class TextLib := {
  html_unescape : str -> str;
  sent_tokenize : str -> list str;
}.

(** [hashlib.sha1(b).hexdigest()]. *)
Class HashLib := {
  sha1_hexdigest : list Byte.byte -> str;
}.

(** A [datetime]: the wall-clock reading in microseconds and, for an aware
    value, its [tzinfo], given by the UTC offset (in microseconds) it
    assigns to a wall-clock reading. *)
Definition tzinfo := Z -> Z.

Record datetime := { wall : Z; dt_tzinfo : option tzinfo }.

Definition utcoffset (d : datetime) : option Z :=
  (λ tz : tzinfo, tz (wall d)) <$> dt_tzinfo d.

(** [tz.tzutc()] *)
Definition tzutc : tzinfo := λ _, 0.

(** [dt.replace(tzinfo=tz)] *)
Definition replace_tzinfo (d : datetime) (tz : tzinfo) : datetime :=
  {| wall := wall d; dt_tzinfo := Some tz |}.

(** [a < b] on datetimes whose [tzinfo] objects differ: aware values are
    compared after subtracting their UTC offsets, naive values by their
    wall clock, and a naive against an aware value raises [TypeError]. *)
Definition dt_lt (a b : datetime) : option bool :=
  match utcoffset a, utcoffset b with
  | Some oa, Some ob => Some (wall a - oa <? wall b - ob)
  | None, None => Some (wall a <? wall b)
  | _, _ => None
  end.

(** [d - timedelta(hours=h)]: wall-clock arithmetic, the [tzinfo] kept. *)
Definition minus_hours (d : datetime) (h : Z) : datetime :=
  {| wall := wall d - h * 3600000000; dt_tzinfo := dt_tzinfo d |}.

(** dateutil's parser and time zones, and the ISO-8601 rendering and
    parsing of [datetime]; [None] stands for a raised exception, and
    [gettz] returns [None] for a zone it does not know. *)
Class DateLib := {
  date_parser_parse : str -> option datetime;
  gettz : str -> option tzinfo;
  astimezone : datetime -> option tzinfo -> option datetime;
  isoformat : datetime -> str;
  fromisoformat : str -> option datetime;
}.

(** VADER's compound polarity and [round(x, 3)], over Python floats. *)
Class SentimentLib := {
  float : Type;
  polarity_compound : str -> float;
  round3 : float -> float;
}.

(** ** [stable_id] *)

Definition stable_id `{HashLib} (url : str) : str :=
  sha1_hexdigest (encode_utf8 url).

(** ** [parse_date] *)

Definition parse_date `{DateLib} (date_str timezone : str) : option str :=
  match date_parser_parse date_str with
  | None => None
  | Some dt =>
      let dt := match dt_tzinfo dt with
                | None => replace_tzinfo dt tzutc
                | Some _ => dt
                end in
      let local_tz := gettz timezone in
      match astimezone dt local_tz with
      | None => None
      | Some local => Some (isoformat local)
      end
  end.

(** ** [summarize] *)

(** Number of characters in front of the first [>] of [s]. *)
Fixpoint until_gt (s : str) : option nat :=
  match s with
  | [] => None
  | c :: r => if bool_decide (c = ">"%char) then Some O else S <$> until_gt r
  end.

(** [re.sub(r"<[^>]+>", " ", text)], scanning left to right; [skip] counts
    the characters of the current match that are still to be consumed. *)
Fixpoint sub_tags_from (skip : nat) (s : str) : str :=
  match s with
  | [] => []
  | c :: r =>
      match skip with
      | S k => sub_tags_from k r
      | O =>
          if bool_decide (c = "<"%char) then
            match until_gt r with
            | Some (S k) => " "%char :: sub_tags_from (S (S k)) r
            | _ => c :: sub_tags_from O r
            end
          else c :: sub_tags_from O r
      end
  end.

Definition sub_tags (text : str) : str := sub_tags_from O text.

(** The [for sentence in sentences] loop; [break] returns the parts
    collected so far, [continue] moves to the next sentence. *)
Fixpoint accumulate (max_chars : Z) (summary_parts : list str)
    (total_chars : Z) (sentences : list str) : list str :=
  match sentences with
  | [] => summary_parts
  | sentence :: rest =>
      let sentence := strip sentence in
      if negb (truthy sentence) then
        accumulate max_chars summary_parts total_chars rest
      else if total_chars + len sentence + 1 >? max_chars then
        summary_parts
      else
        accumulate max_chars (summary_parts ++ [sentence])
          (total_chars + len sentence + 1) rest
  end.

Definition cleaned_text `{TextLib} (text : str) : str :=
  html_unescape (sub_tags text).

Definition summarize `{TextLib} (text : str) (max_chars : Z) : str :=
  if negb (truthy text) then []
  else
    let cleaned := cleaned_text text in
    let sentences := sent_tokenize cleaned in
    let summary_parts := accumulate max_chars [] 0 sentences in
    let summary :=
      match summary_parts with
      | _ :: _ => join (lit " ") summary_parts
      | [] => strip (slice_to cleaned max_chars)
      end in
    strip (slice_to summary max_chars).

(** ** [detect_article_type] *)

Definition detect_article_type (url : str) : str :=
  if contains (lit "/opinion/") (lower url) then lit "Opinion" else lit "News".

(** ** [sentiment_score] *)

Definition sentiment_score `{SentimentLib} (title summary : str) : float :=
  let text := strip (title ++ lit " " ++ summary) in
  polarity_compound text.

(** ** [subjectivity_hint] *)

(** The class [\w] of a Unicode pattern, for code points below U+0100:
    [[0-9A-Za-z_]] and the Latin-1 letters and numerics. *)
Definition is_word (c : ascii) : bool :=
  let n := ord c in
  ((48 <=? n) && (n <=? 57)) || ((65 <=? n) && (n <=? 90)) || (n =? 95)
  || ((97 <=? n) && (n <=? 122))
  || (n =? 170) || (n =? 178) || (n =? 179) || (n =? 181) || (n =? 185)
  || (n =? 186) || ((188 <=? n) && (n <=? 190))
  || ((192 <=? n) && (n <=? 214)) || ((216 <=? n) && (n <=? 246))
  || ((248 <=? n) && (n <=? 255)).

Definition is_word_opt (o : option ascii) : bool := from_option is_word false o.

(** [\b] between the character before and the character after a position
    (either is [None] at the ends of the text). *)
Definition boundary (before after : option ascii) : bool :=
  xorb (is_word_opt before) (is_word_opt after).

(** A literal of the pattern against a character of the text under
    [re.IGNORECASE]. *)
Definition ci_eq (p c : ascii) : bool :=
  bool_decide (lower_char c = lower_char p).

(** The literal [w] at the head of [s]: the last character consumed (or
    [prev] when [w] is empty) and the rest of the text. *)
Fixpoint match_lit_ci (w : str) (prev : option ascii) (s : str)
    : option (option ascii * str) :=
  match w with
  | [] => Some (prev, s)
  | p :: w' =>
      match s with
      | [] => None
      | c :: s' => if ci_eq p c then match_lit_ci w' (Some c) s' else None
      end
  end.

(** The alternation [(w1|...|wn)\b]: the first alternative, in order, that
    matches and ends at a word boundary; the result is its length. *)
Fixpoint match_alts (alts : list str) (prev : option ascii) (s : str)
    : option nat :=
  match alts with
  | [] => None
  | w :: alts' =>
      match match_lit_ci w prev s with
      | Some (last, rest) =>
          if boundary last (head rest) then Some (length w)
          else match_alts alts' prev s
      | None => match_alts alts' prev s
      end
  end.

(** [\b(w1|...|wn)\b] at a position of the text. *)
Definition match_here (alts : list str) (prev : option ascii) (s : str)
    : option nat :=
  if boundary prev (head s) then match_alts alts prev s else None.

(** [len(pattern.findall(text))]: the scan restarts where a match ends;
    [skip] counts the characters of the last match still to be passed. *)
Fixpoint findall_from (alts : list str) (prev : option ascii) (skip : nat)
    (s : str) : nat :=
  match s with
  | [] => O
  | c :: r =>
      match skip with
      | S k => findall_from alts (Some c) k r
      | O =>
          match match_here alts prev s with
          | Some (S k) => S (findall_from alts (Some c) k r)
          | _ => findall_from alts (Some c) O r
          end
      end
  end.

Definition findall_count (alts : list str) (text : str) : nat :=
  findall_from alts None O text.

Definition first_person : list str :=
  map lit ["I"; "we"; "me"; "us"; "my"; "our"; "mine"; "ours"]%string.
Definition modal_verbs : list str :=
  map lit ["should"; "would"; "could"; "must"; "might"; "may"; "ought"]%string.
Definition evaluatives : list str :=
  map lit ["important"; "significant"; "remarkable"; "terrible"; "wonderful";
           "excellent"; "poor"; "good"; "bad"]%string.

Definition subjectivity_score (text : str) : Z :=
  let score := 0 in
  let score := score + Z.of_nat (findall_count first_person text) in
  let score := score + Z.of_nat (findall_count modal_verbs text) in
  let score := score + Z.of_nat (findall_count evaluatives text) in
  score.

Definition subjectivity_hint (text : str) : str :=
  let score := subjectivity_score text in
  if score =? 0 then lit "low"
  else if score <=? 2 then lit "medium"
  else lit "high".

(** ** [Bias] and [compute_bias] *)

Record Bias `{SentimentLib} := {
  article_type : str;
  sentiment : float;
  bias_subjectivity_hint : str;
}.

(** [Bias.to_dict]: the same three fields, the sentiment rounded. *)
Definition to_dict `{SentimentLib} (b : Bias) : Bias :=
  {| article_type := article_type b;
     sentiment := round3 (sentiment b);
     bias_subjectivity_hint := bias_subjectivity_hint b |}.

Definition compute_bias `{SentimentLib} (url title summary : str) : Bias :=
  let article_type := detect_article_type url in
  let sentiment := sentiment_score title summary in
  let subj := subjectivity_hint (title ++ lit " " ++ summary) in
  {| article_type := article_type; sentiment := sentiment;
     bias_subjectivity_hint := subj |}.

End Utils.

Import Utils.

(* ===================================================================== *)
(** * scraper/main.py *)
(* ===================================================================== *)

Module Scraper.

(** ** The run's surroundings *)

(** A parsed feed entry: a mapping from field names to strings. *)
Abbreviation entry := (gmap string str).

(** [readability.Document(html).summary()]; [None] when it raises. *)
Class ReadabilityLib := {
  document_summary : str -> option str;
}.

(** What the network answers during a run: the entries [feedparser] finds
    in the bytes fetched from a feed URL ([None] when the fetch raises,
    after its retries), and the status code and body of an article page
    ([None] when the request raises). *)
Record session := {
  feed_entries : str -> option (list entry);
  page_response : str -> option (Z * str);
}.

(** The part of the process state the run changes besides its result: the
    draws of [random.random()] still to come and the pauses the script
    itself hands to [time.sleep], in seconds.  What a library does inside a
    call is not recorded: the session of [make_session] retries a failed
    request with a backoff, so [session.get] may wait between its attempts,
    and those waits are not in [slept]. *)
Record world := {
  draws : nat -> Q;
  drawn : nat;
  slept : list Q;
}.

(** State passing over [world]. *)
Definition M (A : Type) : Type := world -> A * world.

Definition ret {A} (a : A) : M A := λ w, (a, w).
Definition bind {A B} (m : M A) (k : A -> M B) : M B :=
  λ w, let '(a, w') := m w in k a w'.

Notation "'do' x <- m 'in' k" := (bind m (λ x, k))
  (at level 10, x name, m at level 100, k at level 200).
Notation "'do_' m 'in' k" := (bind m (λ _, k))
  (at level 10, m at level 100, k at level 200).

(** [random.random()] *)
Definition random_random : M Q :=
  λ w, (draws w (drawn w),
        {| draws := draws w; drawn := S (drawn w); slept := slept w |}).

(** [time.sleep(d)] *)
Definition time_sleep (d : Q) : M unit :=
  λ w, (tt, {| draws := draws w; drawn := drawn w; slept := slept w ++ [d] |}).

(** ** Configuration *)

Record section_cfg := {
  sec_url : str;
  sec_name : str;
  max_items : Z;
}.

(** The parsed [config.yml]; the defaults of [config.get] are applied when
    the record is built. [window_hours] is a whole number of hours, and
    [sections] keeps the order of the file. *)
Record config := {
  timezone : str;
  window_hours : Z;
  allow_extract : bool;
  rate_limit_seconds : Q;
  sections : list (string * section_cfg);
}.

(** [config["sections"][name]] *)
Fixpoint section_lookup (name : string) (secs : list (string * section_cfg))
    : option section_cfg :=
  match secs with
  | [] => None
  | (k, c) :: rest => if bool_decide (k = name) then Some c
                      else section_lookup name rest
  end.

(** ** Items *)

Record item `{SentimentLib} := {
  id : str;
  url : option str;
  title : str;
  published_at : str;
  section : str;
  summary_auto : str;
  bias_heuristic : Bias;
}.

Record snapshot `{SentimentLib} := {
  source : str;
  generated_at : str;
  snap_timezone : str;
  items : list item;
}.

(** Truth value of an optional string ([None] and [""] are false), and
    [a or b] with a string on the right. *)
Definition opt_truthy (o : option str) : bool :=
  match o with Some s => truthy s | None => false end.

Definition opt_or (o : option str) (d : str) : str :=
  match o with
  | Some s => if truthy s then s else d
  | None => d
  end.

Section WithLibs.
Context `{TextLib} `{HashLib} `{DateLib} `{SentimentLib} `{ReadabilityLib}.

(** ** [fetch_feed_bytes]

    The pause, then the request; the answer is kept in the form
    [feedparser.parse] gives it.  The request goes through the retrying
    session: [feed_entries] is its outcome after the retries, and the waits
    between the attempts are the library's own, outside [slept]. *)

Definition fetch_feed_bytes (s : session) (url : str) : M (option (list entry)) :=
  do r <- random_random in
  do_ time_sleep (Qplus (8 # 10) (Qmult r (12 # 10))) in
  ret (feed_entries s url).

(** ** [fetch_content] *)

Definition fetch_content (s : session) (url : str) : option str :=
  match page_response s url with
  | None => None
  | Some (status_code, text) =>
      if negb (status_code =? 200) then None
      else document_summary text
  end.

(** ** [scrape_section] *)

(** The first of the date fields present in the entry. *)
Fixpoint first_present (keys : list string) (e : entry) : option str :=
  match keys with
  | [] => None
  | key :: keys' =>
      match e !! key with
      | Some v => Some v
      | None => first_present keys' e
      end
  end.

Definition date_keys : list string :=
  ["published"; "updated"; "pubDate"; "date"]%string.

(** What one turn of the loop over the entries does. *)
Inductive outcome :=
| Continue
| Append (it : item)
| Raise.

Definition loop_body (sname tz_name : str) (window_start : datetime)
    (allow : bool) (s : session) (e : entry) : outcome :=
  match first_present date_keys e with
  | None => Continue
  | Some pub_str =>
  if negb (truthy pub_str) then Continue
  else
    match parse_date pub_str tz_name with
    | None => Continue
    | Some published_at =>
        if negb (truthy published_at) then Continue
        else
          match fromisoformat published_at with
          | None => Raise
          | Some dt =>
              match dt_lt dt window_start with
              | None => Raise
              | Some true => Continue
              | Some false =>
                  let url_entry := e !! "link"%string in
                  let title :=
                    strip (html_unescape (default [] (e !! "title"%string))) in
                  let summary_raw :=
                    if opt_truthy (e !! "summary"%string)
                    then opt_or (e !! "summary"%string) []
                    else opt_or (e !! "description"%string) [] in
                  let summary_auto := summarize summary_raw 500 in
                  let summary_auto :=
                    if negb (truthy summary_auto) && allow
                       && opt_truthy url_entry
                    then
                      let extracted_html :=
                        fetch_content s (opt_or url_entry []) in
                      if opt_truthy extracted_html
                      then summarize (opt_or extracted_html []) 500
                      else summary_auto
                    else summary_auto in
                  let bias :=
                    compute_bias (opt_or url_entry []) title summary_auto in
                  Append {| id := stable_id (opt_or url_entry title);
                            url := url_entry;
                            title := title;
                            published_at := published_at;
                            section := sname;
                            summary_auto := summary_auto;
                            bias_heuristic := to_dict bias |}
              end
          end
    end
  end.

(** The loop over [feed.entries], appending to [items]. *)
Fixpoint entries_loop (sname tz_name : str) (window_start : datetime)
    (allow : bool) (s : session) (items : list item) (entries : list entry)
    : option (list item) :=
  match entries with
  | [] => Some items
  | e :: rest =>
      match loop_body sname tz_name window_start allow s e with
      | Continue =>
          entries_loop sname tz_name window_start allow s items rest
      | Append it =>
          entries_loop sname tz_name window_start allow s (items ++ [it]) rest
      | Raise => None
      end
  end.

(** [items.sort(key=lambda x: x["published_at"], reverse=True)]: a stable
    sort, newest string first. *)
Fixpoint insert_desc (x : item) (l : list item) : list item :=
  match l with
  | [] => [x]
  | y :: r =>
      if str_lt (published_at x) (published_at y) then y :: insert_desc x r
      else x :: l
  end.

Definition sort_desc (l : list item) : list item := foldr insert_desc [] l.

(** Everything in [scrape_section] after the feed has been fetched. *)
Definition scrape_entries (c : config) (sc : section_cfg) (now : datetime)
    (allow : bool) (s : session) (entries : list entry)
    : option (list item) :=
  let tz_name := timezone c in
  let window_start := minus_hours now (window_hours c) in
  match entries_loop (sec_name sc) tz_name window_start allow s [] entries with
  | None => None
  | Some items => Some (slice_to (sort_desc items) (max_items sc))
  end.

Definition scrape_section (name : string) (c : config) (now : datetime)
    (allow : bool) (s : session) : M (option (list item)) :=
  match section_lookup name (sections c) with
  | None => ret None
  | Some sc =>
      do feed <- fetch_feed_bytes s (sec_url sc) in
      match feed with
      | None => ret None
      | Some entries => ret (scrape_entries c sc now allow s entries)
      end
  end.

(** ** [deduplicate] *)

Definition dedup_key (it : item) : option str * str :=
  (url it, lower (title it)).

Fixpoint dedup_loop (seen : gset (option str * str)) (deduped : list item)
    (l : list item) : list item :=
  match l with
  | [] => deduped
  | it :: rest =>
      let key := dedup_key it in
      if bool_decide (key ∈ seen) then dedup_loop seen deduped rest
      else dedup_loop ({[ key ]} ∪ seen) (deduped ++ [it]) rest
  end.

Definition deduplicate (l : list item) : list item := dedup_loop ∅ [] l.

(** ** [main], from the moment [now] has been read *)

(** [max(a, b)]: the first argument unless the second is greater. *)
Definition Qmax (a b : Q) : Q := if Qle_bool b a then a else b.

(** The loop over the sections: a section that raises adds nothing, and
    the pause of the [finally] clause follows every section. *)
Fixpoint sections_loop (c : config) (now : datetime) (allow : bool)
    (s : session) (all_items : list item)
    (keys : list string) : M (list item) :=
  match keys with
  | [] => ret all_items
  | sec_key :: keys' =>
      do r <- scrape_section sec_key c now allow s in
      let all_items :=
        match r with
        | Some its => all_items ++ its
        | None => all_items
        end in
      do rnd <- random_random in
      let jitter := Qmult (rate_limit_seconds c) (Qplus (5 # 10) rnd) in
      do_ time_sleep (Qmax (5 # 10) jitter) in
      sections_loop c now allow s all_items keys'
  end.

Definition main (c : config) (now : datetime) (s : session) : M snapshot :=
  let allow := allow_extract c in
  do all_items <- sections_loop c now allow s [] (map fst (sections c)) in
  let all_items := sort_desc all_items in
  let deduped := deduplicate all_items in
  ret {| source := lit "CBC News";
         generated_at := isoformat now;
         snap_timezone := timezone c;
         items := deduped |}.

End WithLibs.

End Scraper.

Import Scraper.

(* ===================================================================== *)
(** * cbc-news-scraper-ui/scraper/main.py

    The earlier variant of the scraper: [feedparser] fetches the feed
    itself, there is no session, no retry and no jitter, and the pause
    between sections is taken only after a section that did not raise. *)
(* ===================================================================== *)

Module ScraperUI.

Section WithLibs.
Context `{TextLib} `{HashLib} `{DateLib} `{SentimentLib} `{ReadabilityLib}.

(** ** [fetch_content]

    [requests.get] with a timeout of ten seconds: a raised exception and a
    status other than 200 give [None], otherwise the readable part. *)
Definition fetch_content (s : session) (url : str) : option str :=
  match page_response s url with
  | None => None
  | Some (status_code, text) =>
      if negb (status_code =? 200) then None
      else document_summary text
  end.

(** ** [scrape_section]

    [feedparser.parse(url)] does not raise when the feed cannot be fetched:
    the feed then has no entries.  The loop over the entries, the sort and
    the cap are those of [scraper/main.py], statement for statement. *)
Definition scrape_section (name : string) (c : config) (now : datetime)
    (allow : bool) (s : session) : option (list item) :=
  match section_lookup name (sections c) with
  | None => None
  | Some sc =>
      let entries := default [] (feed_entries s (sec_url sc)) in
      scrape_entries c sc now allow s entries
  end.

(** ** [deduplicate] *)

Fixpoint dedup_loop (seen : gset (option str * str)) (deduped : list item)
    (l : list item) : list item :=
  match l with
  | [] => deduped
  | it :: rest =>
      let key := (url it, lower (title it)) in
      if bool_decide (key ∈ seen) then dedup_loop seen deduped rest
      else dedup_loop ({[ key ]} ∪ seen) (deduped ++ [it]) rest
  end.

Definition deduplicate (l : list item) : list item := dedup_loop ∅ [] l.

(** ** [main], from the moment [now] has been read *)

Fixpoint sections_loop (c : config) (now : datetime) (allow : bool)
    (s : session) (all_items : list item) (keys : list string)
    : M (list item) :=
  match keys with
  | [] => ret all_items
  | sec_key :: keys' =>
      match scrape_section sec_key c now allow s with
      | Some its =>
          do_ time_sleep (rate_limit_seconds c) in
          sections_loop c now allow s (all_items ++ its) keys'
      | None => sections_loop c now allow s all_items keys'
      end
  end.

Definition main (c : config) (now : datetime) (s : session) : M snapshot :=
  let allow := allow_extract c in
  do all_items <- sections_loop c now allow s [] (map fst (sections c)) in
  let all_items := sort_desc all_items in
  let deduped := deduplicate all_items in
  ret {| source := lit "CBC News";
         generated_at := isoformat now;
         snap_timezone := timezone c;
         items := deduped |}.

End WithLibs.

End ScraperUI.

(* ===================================================================== *)
(** * A reference instance of the libraries

    Used to run the pipeline on concrete inputs.  SHA-1 is the algorithm of
    FIPS 180-4; the other operations agree with the Python libraries on the
    inputs named in their comments. *)
(* ===================================================================== *)

Module Reference.

(** ** SHA-1 *)

Definition w32 (x : Z) : Z := x mod 2 ^ 32.

Definition rotl (n x : Z) : Z :=
  w32 (Z.lor (Z.shiftl x n) (Z.shiftr x (32 - n))).

Fixpoint be_bytes (n : nat) (x : Z) : list Z :=
  match n with
  | O => []
  | S n' => be_bytes n' (x / 256) ++ [x mod 256]
  end.

Definition sha1_pad (msg : list Z) : list Z :=
  let l := len msg in
  let zeros := (55 - l) mod 64 in
  msg ++ [128] ++ repeat 0 (Z.to_nat zeros) ++ be_bytes 8 (8 * l).

Fixpoint be_words (bs : list Z) : list Z :=
  match bs with
  | a :: b :: c :: d :: r => (((a * 256 + b) * 256 + c) * 256 + d) :: be_words r
  | _ => []
  end.

(** The message schedule, newest word first. *)
Fixpoint extend (n : nat) (rev_w : list Z) : list Z :=
  match n with
  | O => rev_w
  | S n' =>
      let g i := nth i rev_w 0 in
      let x := Z.lxor (Z.lxor (g 2%nat) (g 7%nat)) (Z.lxor (g 13%nat) (g 15%nat)) in
      extend n' (rotl 1 x :: rev_w)
  end.

Definition sha1_round (st : Z * Z * Z * Z * Z) (tw : nat * Z)
    : Z * Z * Z * Z * Z :=
  let '(a, b, c, d, e) := st in
  let '(t, w) := tw in
  let '(f, k) :=
    if (t <? 20)%nat then
      (Z.lor (Z.land b c) (Z.land (Z.lxor b (2 ^ 32 - 1)) d), 1518500249)
    else if (t <? 40)%nat then (Z.lxor (Z.lxor b c) d, 1859775393)
    else if (t <? 60)%nat then
      (Z.lor (Z.lor (Z.land b c) (Z.land b d)) (Z.land c d), 2400959708)
    else (Z.lxor (Z.lxor b c) d, 3395469782) in
  (w32 (rotl 5 a + f + e + k + w), a, rotl 30 b, c, d).

Definition sha1_block (h : Z * Z * Z * Z * Z) (block : list Z)
    : Z * Z * Z * Z * Z :=
  let ws := rev (extend 64 (rev (be_words block))) in
  let '(a, b, c, d, e) := foldl sha1_round h (zip (seq 0 80) ws) in
  let '(h0, h1, h2, h3, h4) := h in
  (w32 (h0 + a), w32 (h1 + b), w32 (h2 + c), w32 (h3 + d), w32 (h4 + e)).

Fixpoint sha1_blocks (n : nat) (h : Z * Z * Z * Z * Z) (bs : list Z)
    : Z * Z * Z * Z * Z :=
  match n with
  | O => h
  | S n' => sha1_blocks n' (sha1_block h (take 64 bs)) (drop 64 bs)
  end.

Definition hex_digit (d : Z) : ascii :=
  nth (Z.to_nat d) (lit "0123456789abcdef") "0"%char.

Definition hex_byte (b : Z) : str := [hex_digit (b / 16); hex_digit (b mod 16)].

Definition sha1_hex (msg : list Byte.byte) : str :=
  let bs := sha1_pad (map (λ b, Z.of_N (Byte.to_N b)) msg) in
  let '(h0, h1, h2, h3, h4) :=
    sha1_blocks (length bs / 64)
      (1732584193, 4023233417, 2562383102, 271733878, 3285377520) bs in
  flat_map hex_byte
    (be_bytes 4 h0 ++ be_bytes 4 h1 ++ be_bytes 4 h2 ++ be_bytes 4 h3
     ++ be_bytes 4 h4).

#[export] Instance hashlib : HashLib := {| sha1_hexdigest := sha1_hex |}.

(** ** [html.unescape]

    Decodes the references [&amp;] [&lt;] [&gt;] [&quot;] [&#39;] and
    [&nbsp;]; it agrees with [html.unescape] on text without [&] and on
    text whose every [&] starts one of these six, semicolon included. *)

Definition entities : list (str * ascii) :=
  [(lit "&amp;", "&"%char); (lit "&lt;", "<"%char); (lit "&gt;", ">"%char);
   (lit "&quot;", "034"%char); (lit "&#39;", "'"%char);
   (lit "&nbsp;", "160"%char)].

Fixpoint entity_at (tbl : list (str * ascii)) (s : str) : option (ascii * nat) :=
  match tbl with
  | [] => None
  | (name, c) :: tbl' =>
      if starts_with name s then Some (c, length name) else entity_at tbl' s
  end.

Fixpoint unescape_from (skip : nat) (s : str) : str :=
  match s with
  | [] => []
  | c :: r =>
      match skip with
      | S k => unescape_from k r
      | O =>
          match entity_at entities s with
          | Some (ch, n) => ch :: unescape_from (pred n) r
          | None => c :: unescape_from O r
          end
      end
  end.

(** ** [sent_tokenize]

    A sentence ends at [.], [!] or [?] followed by white space; the white
    space between sentences belongs to neither.  It agrees with Punkt on
    text made of sentences of ordinary words that begin with a capital
    letter and end in one of the three marks. *)

Definition is_terminator (c : ascii) : bool :=
  bool_decide (c = "."%char) || bool_decide (c = "!"%char)
  || bool_decide (c = "?"%char).

Definition finish (cur : str) : list str :=
  let t := rstrip (rev cur) in
  if truthy t then [t] else [].

Fixpoint tokenize_from (cur : str) (s : str) : list str :=
  match s with
  | [] => finish cur
  | c :: r =>
      if negb (truthy cur) && isspace c then tokenize_from [] r
      else if is_terminator c && from_option isspace false (head r)
      then rev (c :: cur) :: tokenize_from [] r
      else tokenize_from (c :: cur) r
  end.

#[export] Instance textlib : TextLib :=
  {| html_unescape := unescape_from O;
     sent_tokenize := tokenize_from [] |}.

(** ** Dates

    The civil calendar, ISO-8601 strings of the shape
    [YYYY-MM-DDTHH:MM:SS] with an optional [+HH:MM] offset, RFC 822 dates
    with a numeric or [GMT] zone, and the zones [UTC] and
    [America/Toronto] (the rules in force since 2007). *)

Definition days_from_civil (y m d : Z) : Z :=
  let y := if m <=? 2 then y - 1 else y in
  let era := y / 400 in
  let yoe := y - era * 400 in
  let doy := (153 * (if m >? 2 then m - 3 else m + 9) + 2) / 5 + d - 1 in
  let doe := yoe * 365 + yoe / 4 - yoe / 100 + doy in
  era * 146097 + doe - 719468.

Definition civil_from_days (z : Z) : Z * Z * Z :=
  let z := z + 719468 in
  let era := z / 146097 in
  let doe := z - era * 146097 in
  let yoe := (doe - doe / 1460 + doe / 36524 - doe / 146096) / 365 in
  let doy := doe - (365 * yoe + yoe / 4 - yoe / 100) in
  let mp := (5 * doy + 2) / 153 in
  let d := doy - (153 * mp + 2) / 5 + 1 in
  let m := if mp <? 10 then mp + 3 else mp - 9 in
  ((if m <=? 2 then yoe + era * 400 + 1 else yoe + era * 400), m, d).

Definition us_per_second : Z := 1000000.
Definition us_per_day : Z := 86400 * us_per_second.

Definition wall_of (y m d hh mm ss : Z) : Z :=
  days_from_civil y m d * us_per_day + ((hh * 60 + mm) * 60 + ss) * us_per_second.

Definition digit_val (c : ascii) : option Z :=
  let n := ord c in
  if (48 <=? n) && (n <=? 57) then Some (n - 48) else None.

Fixpoint num_from (acc : Z) (s : str) : option Z :=
  match s with
  | [] => Some acc
  | c :: r => match digit_val c with
              | Some d => num_from (acc * 10 + d) r
              | None => None
              end
  end.

Definition num (s : str) : option Z :=
  match s with [] => None | _ => num_from 0 s end.

Definition sub (s : str) (i n : nat) : str := take n (drop i s).

Definition valid_civil (y m d hh mm ss : Z) : bool :=
  (1 <=? y) && (y <=? 9999)
  && bool_decide (civil_from_days (days_from_civil y m d) = (y, m, d))
  && (hh <? 24) && (mm <? 60) && (ss <? 60).

Definition fixed_offset (o : Z) : tzinfo := λ _, o.

(** A [+HH:MM] or [-HH:MM] suffix ([+HHMM] without [colon]), in
    microseconds. *)
Definition parse_offset (colon : bool) (s : str) : option Z :=
  match s with
  | sign :: r =>
      let hh := num (sub r 0 2) in
      let mm := num (sub r (if colon then 3 else 2) 2) in
      let well := bool_decide (length r = (if colon then 5 else 4)%nat)
                  && (negb colon || bool_decide (sub r 2 1 = lit ":")) in
      match hh, mm with
      | Some hh, Some mm =>
          let o := (hh * 60 + mm) * 60 * us_per_second in
          if negb well then None
          else if bool_decide (sign = "+"%char) then Some o
          else if bool_decide (sign = "-"%char) then Some (- o)
          else None
      | _, _ => None
      end
  | [] => None
  end.

Definition fromisoformat_ref (s : str) : option datetime :=
  match num (sub s 0 4), num (sub s 5 2), num (sub s 8 2),
        num (sub s 11 2), num (sub s 14 2), num (sub s 17 2) with
  | Some y, Some m, Some d, Some hh, Some mm, Some ss =>
      if bool_decide (sub s 4 1 = lit "-") && bool_decide (sub s 7 1 = lit "-")
         && bool_decide (sub s 10 1 = lit "T")
         && bool_decide (sub s 13 1 = lit ":")
         && bool_decide (sub s 16 1 = lit ":")
         && valid_civil y m d hh mm ss
      then
        match drop 19 s with
        | [] => Some {| wall := wall_of y m d hh mm ss; dt_tzinfo := None |}
        | off =>
            o ← parse_offset true off;
            Some {| wall := wall_of y m d hh mm ss;
                    dt_tzinfo := Some (fixed_offset o) |}
        end
      else None
  | _, _, _, _, _, _ => None
  end.

Definition pad2 (n : Z) : str :=
  [ascii_of_N (Z.to_N (48 + n / 10 mod 10)); ascii_of_N (Z.to_N (48 + n mod 10))].

Definition pad4 (n : Z) : str := pad2 (n / 100) ++ pad2 (n mod 100).

Definition isoformat_ref (d : datetime) : str :=
  let days := wall d / us_per_day in
  let secs := wall d mod us_per_day / us_per_second in
  let '(y, m, dd) := civil_from_days days in
  pad4 y ++ lit "-" ++ pad2 m ++ lit "-" ++ pad2 dd ++ lit "T"
  ++ pad2 (secs / 3600) ++ lit ":" ++ pad2 (secs / 60 mod 60) ++ lit ":"
  ++ pad2 (secs mod 60)
  ++ match utcoffset d with
     | None => []
     | Some o =>
         let mins := Z.abs o / (60 * us_per_second) in
         (if o <? 0 then lit "-" else lit "+")
         ++ pad2 (mins / 60) ++ lit ":" ++ pad2 (mins mod 60)
     end.

Definition month_names : list str :=
  map lit ["Jan"; "Feb"; "Mar"; "Apr"; "May"; "Jun"; "Jul"; "Aug"; "Sep";
           "Oct"; "Nov"; "Dec"]%string.

Fixpoint index_of (x : str) (l : list str) (i : Z) : option Z :=
  match l with
  | [] => None
  | y :: r => if bool_decide (x = y) then Some i else index_of x r (i + 1)
  end.

Definition parse_zone (z : str) : option Z :=
  if bool_decide (z = lit "GMT") || bool_decide (z = lit "UTC")
     || bool_decide (z = lit "UT") || bool_decide (z = lit "Z")
  then Some 0 else parse_offset false z.

Definition parse_rfc822 (s : str) : option datetime :=
  let fields := split_on " "%char [] s in
  let fields := match fields with
                | f :: r => if bool_decide (last f = Some ","%char) then r
                            else fields
                | [] => []
                end in
  match fields with
  | [dd; mon; yyyy; time; zone] =>
      d ← num dd; m ← index_of mon month_names 1; y ← num yyyy;
      hh ← num (sub time 0 2); mm ← num (sub time 3 2);
      ss ← num (sub time 6 2); o ← parse_zone zone;
      if valid_civil y m d hh mm ss && bool_decide (length time = 8%nat)
      then Some {| wall := wall_of y m d hh mm ss;
                   dt_tzinfo := Some (fixed_offset o) |}
      else None
  | _ => None
  end.

Definition parse_ref (s : str) : option datetime :=
  match fromisoformat_ref s with
  | Some d => Some d
  | None => parse_rfc822 s
  end.

(** Day of the month of the [n]-th Sunday of month [m] of year [y]. *)
Definition nth_sunday (y m n : Z) : Z :=
  let dow1 := (days_from_civil y m 1 + 4) mod 7 in
  1 + (7 - dow1) mod 7 + 7 * (n - 1).

Definition toronto : tzinfo := λ w,
  let '(y, _, _) := civil_from_days (w / us_per_day) in
  let dst_start := wall_of y 3 (nth_sunday y 3 2) 2 0 0 in
  let dst_end := wall_of y 11 (nth_sunday y 11 1) 2 0 0 in
  if (dst_start <=? w) && (w <? dst_end) then - 4 * 3600 * us_per_second
  else - 5 * 3600 * us_per_second.

Definition gettz_ref (name : str) : option tzinfo :=
  if bool_decide (name = lit "UTC") then Some tzutc
  else if bool_decide (name = lit "America/Toronto") then Some toronto
  else None.

(** [astimezone] of an aware value; [None] as the zone is the system's
    zone, taken to be UTC. *)
Definition astimezone_ref (d : datetime) (tz : option tzinfo) : option datetime :=
  let tz := default tzutc tz in
  let utc := wall d - default 0 (utcoffset d) in
  let w0 := utc + tz utc in
  Some {| wall := utc + tz w0; dt_tzinfo := Some tz |}.

#[export] Instance datelib : DateLib :=
  {| date_parser_parse := parse_ref;
     gettz := gettz_ref;
     astimezone := astimezone_ref;
     isoformat := isoformat_ref;
     fromisoformat := fromisoformat_ref |}.

(** ** VADER and readability

    The compound score of text without lexicon words, 0.0, and a page
    whose readable part is the page itself. *)

#[export] Instance sentimentlib : SentimentLib :=
  {| float := Q; polarity_compound := λ _, 0%Q; round3 := λ x, x |}.

#[export] Instance readabilitylib : ReadabilityLib :=
  {| document_summary := Some |}.

(** ** Items for the examples *)

Definition example_item (u : option str) (t pa : str) : item :=
  {| id := stable_id (opt_or u t); url := u; title := t; published_at := pa;
     section := lit "Top Stories"; summary_auto := [];
     bias_heuristic := to_dict (compute_bias (opt_or u []) t []) |}.

(** Two items with one key, an unrelated one between them. *)
Definition deduplicate_example : list item :=
  [example_item (Some (lit "https://cbc.ca/news/a-1")) (lit "Budget 2025")
     (lit "2025-11-05T09:00:00-05:00");
   example_item None (lit "Storm warning") (lit "2025-11-05T08:00:00-05:00");
   example_item (Some (lit "https://cbc.ca/news/a-1")) (lit "BUDGET 2025")
     (lit "2025-11-05T04:00:00-05:00")].

(** ** A run for the examples

    One section; the clock reads 10:00 on 5 November 2025 in Toronto and
    the window is 24 hours, so it starts at 10:00 on 4 November, which is
    15:00 GMT. *)

Definition feed_url : str := lit "https://www.cbc.ca/webfeed/rss/rss-topstories".

Definition example_config : config :=
  {| timezone := lit "America/Toronto";
     window_hours := 24;
     allow_extract := false;
     rate_limit_seconds := 1%Q;
     sections := [("top"%string,
                   {| sec_url := feed_url; sec_name := lit "Top Stories";
                      max_items := 20 |})] |}.

Definition example_now : datetime :=
  {| wall := wall_of 2025 11 5 10 0 0; dt_tzinfo := Some toronto |}.

Definition entry_of (fields : list (string * string)) : entry :=
  list_to_map (map (λ kv, (kv.1, lit kv.2)) fields).

(** One second older than the window. *)
Definition entry_old : entry :=
  entry_of [("title", "Old news"); ("link", "https://cbc.ca/news/old-1");
            ("published", "Tue, 04 Nov 2025 14:59:59 GMT")]%string.

(** Exactly at the start of the window. *)
Definition entry_edge : entry :=
  entry_of [("title", "Edge of the window"); ("link", "https://cbc.ca/news/edge-1");
            ("published", "Tue, 04 Nov 2025 15:00:00 GMT")]%string.

Definition entry_new : entry :=
  entry_of [("title", "Budget 2025 &amp; you");
            ("link", "https://cbc.ca/news/politics/budget-1");
            ("summary", "<p>The budget passed. Reactions were mixed.</p>");
            ("published", "Wed, 05 Nov 2025 09:00:00 GMT")]%string.

(** No date field at all, and a date field that is not a date. *)
Definition entry_undated : entry :=
  entry_of [("title", "Undated"); ("link", "https://cbc.ca/news/undated-1")]%string.

Definition entry_baddate : entry :=
  entry_of [("title", "Bad date"); ("link", "https://cbc.ca/news/bad-1");
            ("published", "yesterday");
            ("updated", "Wed, 05 Nov 2025 09:30:00 GMT")]%string.

Definition example_feed : list entry :=
  [entry_old; entry_undated; entry_edge; entry_baddate; entry_new].

Definition example_session : session :=
  {| feed_entries := λ u, if bool_decide (u = feed_url) then Some example_feed
                          else None;
     page_response := λ _, None |}.

(** Two sections carrying the same article, the second with an older date. *)
Definition politics_url : str := lit "https://www.cbc.ca/webfeed/rss/rss-politics".

Definition two_sections_config : config :=
  {| timezone := lit "America/Toronto";
     window_hours := 24;
     allow_extract := false;
     rate_limit_seconds := 1%Q;
     sections := [("politics"%string,
                   {| sec_url := politics_url; sec_name := lit "Politics";
                      max_items := 20 |});
                  ("top"%string,
                   {| sec_url := feed_url; sec_name := lit "Top Stories";
                      max_items := 20 |})] |}.

Definition entry_new_earlier : entry :=
  entry_of [("title", "BUDGET 2025 &amp; YOU");
            ("link", "https://cbc.ca/news/politics/budget-1");
            ("published", "Wed, 05 Nov 2025 08:00:00 GMT")]%string.

Definition two_sections_session : session :=
  {| feed_entries := λ u, if bool_decide (u = feed_url) then Some [entry_new]
                          else if bool_decide (u = politics_url)
                               then Some [entry_new_earlier]
                               else None;
     page_response := λ _, None |}.

(** The morning after the clocks went back in Toronto. *)
Definition now_after_dst_end : datetime :=
  {| wall := wall_of 2025 11 2 10 0 0; dt_tzinfo := Some toronto |}.

(** The section of the examples with a cap of one item. *)
Definition capped_section : section_cfg :=
  {| sec_url := feed_url; sec_name := lit "Top Stories"; max_items := 1 |}.

(** The feeds of the examples, with article pages that answer. *)
Definition pages_session : session :=
  {| feed_entries := feed_entries example_session;
     page_response := λ _, Some (200, lit "<p>The full text. Of the page.</p>") |}.

(** The configuration of the examples with the extraction switched on. *)
Definition extract_config : config :=
  {| timezone := lit "America/Toronto";
     window_hours := 24;
     allow_extract := true;
     rate_limit_seconds := 1%Q;
     sections := sections example_config |}.

(** The clock read without a zone, as [datetime.now(None)] gives it. *)
Definition naive_now : datetime :=
  {| wall := wall_of 2025 11 5 10 0 0; dt_tzinfo := None |}.

Definition example_world : world :=
  {| draws := λ _, (1 # 2)%Q; drawn := O; slept := [] |}.

(** An entry dated five years after the clock of the examples. *)
Definition entry_future : entry :=
  entry_of [("title", "Dated ahead"); ("link", "https://cbc.ca/news/ahead-1");
            ("published", "Tue, 05 Nov 2030 09:00:00 GMT")]%string.

(** The morning after the clocks went forward in Toronto. *)
Definition now_after_dst_start : datetime :=
  {| wall := wall_of 2025 3 9 10 0 0; dt_tzinfo := Some toronto |}.

(** Published 24 hours and 30 minutes before [now_after_dst_end], and
    exactly 24 hours before [now_after_dst_start]. *)
Definition entry_before_dst_end : entry :=
  entry_of [("title", "Before the clocks went back");
            ("link", "https://cbc.ca/news/autumn-1");
            ("published", "Sat, 01 Nov 2025 14:30:00 GMT")]%string.

Definition entry_before_dst_start : entry :=
  entry_of [("title", "Before the clocks went forward");
            ("link", "https://cbc.ca/news/spring-1");
            ("published", "Sat, 08 Mar 2025 14:00:00 GMT")]%string.

(** The session of the examples with a feed of one entry. *)
Definition single_entry_session (e : entry) : session :=
  {| feed_entries := λ u, if bool_decide (u = feed_url) then Some [e] else None;
     page_response := λ _, None |}.

End Reference.

Import Reference.

(* ===================================================================== *)
(** * The properties in the words of the specification *)
(* ===================================================================== *)

Module Spec.

(** ** Summaries *)

(** The sentences the summariser works with: each one trimmed, the empty
    ones left out. *)
Definition trimmed_sentences `{TextLib} (cleaned : str) : list str :=
  List.filter truthy (map strip (sent_tokenize cleaned)).

(** What a list of sentences costs when each is charged its length and
    one separator. *)
Definition cost (parts : list str) : Z :=
  foldr (λ p acc, len p + 1 + acc) 0 parts.

(** The longest run of leading sentences whose cost stays within the
    budget. *)
Fixpoint take_fitting (budget : Z) (l : list str) : list str :=
  match l with
  | [] => []
  | s :: r =>
      if len s + 1 <=? budget then s :: take_fitting (budget - (len s + 1)) r
      else []
  end.

(** Greedy accumulation as the specification words it: a sentence is added
    unless the summary, joined by single spaces, would then be longer than
    [max_chars]; the first sentence that would overflow ends the loop. *)
Fixpoint greedy_by_length (max_chars : Z) (parts : list str) (l : list str)
    : list str :=
  match l with
  | [] => parts
  | s :: r =>
      if len (join (lit " ") (parts ++ [s])) >? max_chars then parts
      else greedy_by_length max_chars (parts ++ [s]) r
  end.

Definition spec_summarize `{TextLib} (text : str) (max_chars : Z) : str :=
  if negb (truthy text) then []
  else
    let cleaned := cleaned_text text in
    match greedy_by_length max_chars [] (trimmed_sentences cleaned) with
    | [] => strip (slice_to cleaned max_chars)
    | parts => join (lit " ") parts
    end.

(** ** Article type *)

(** What follows the first occurrence of [needle] in [s]. *)
Fixpoint after (needle s : str) : option str :=
  if starts_with needle s then Some (drop (length needle) s)
  else match s with
       | [] => None
       | _ :: s' => after needle s'
       end.

(** The path of a URL: what follows the scheme and the authority, up to
    the query or the fragment. *)
Definition url_path (url : str) : str :=
  let rest :=
    match after (lit "://") url with
    | Some r => dropwhile (λ c, negb (bool_decide (c = "/"%char))) r
    | None => url
    end in
  takewhile (λ c, negb (bool_decide (c = "?"%char) || bool_decide (c = "#"%char)))
    rest.

(** The URL path has a segment that is [opinion], whatever the case. *)
Definition has_opinion_segment (url : str) : bool :=
  existsb (λ seg, bool_decide (lower seg = lit "opinion"))
    (split_on "/"%char [] (url_path url)).

(** ** Subjectivity *)

(** The words of a text: its maximal runs of word characters; [cur] holds
    the run being read, last character first. *)
Fixpoint words_from (cur : str) (s : str) : list str :=
  match s with
  | [] => if truthy cur then [rev cur] else []
  | c :: r =>
      if is_word c then words_from (c :: cur) r
      else (if truthy cur then [rev cur] else []) ++ words_from [] r
  end.

Definition words (text : str) : list str := words_from [] text.

(** A word is a marker of a class when it is one of the words of the
    class, whatever the case. *)
Definition is_marker (markers : list str) (w : str) : bool :=
  existsb (λ m, bool_decide (lower w = lower m)) markers.

(** Whole-word, case-insensitive occurrences of the markers of a class. *)
Definition count_markers (markers : list str) (text : str) : Z :=
  len (List.filter (is_marker markers) (words text)).

(** The same count as a natural number, over a list of words. *)
Definition count (alts : list str) (ws : list str) : nat :=
  length (List.filter (is_marker alts) ws).

(** An alternative of a pattern that is a word: not empty, made of word
    characters. *)
Definition word_literal (w : str) : Prop := w ≠ [] ∧ forallb is_word w = true.

(** The last character of [a], or [prev] when [a] is empty. *)
Definition last_or (prev : option ascii) (a : str) : option ascii :=
  match last a with Some c => Some c | None => prev end.

(** The scan of [findall], started at a position that does not continue a
    word, counts the marker words of the text from there. *)
Definition scan_ok (alts : list str) (s : str) : Prop :=
  ∀ prev, is_word_opt prev = false ∨ is_word_opt (head s) = false →
          findall_from alts prev O s = count alts (words s).

(** The total over the three classes. *)
Definition marker_total (text : str) : Z :=
  count_markers first_person text + count_markers modal_verbs text
  + count_markers evaluatives text.

(** ** Deduplication *)

(** First occurrences: an item is kept when none of the items in front of
    it ([before], then the part of the list already passed) has its key. *)
Fixpoint first_occ_from `{SentimentLib} (before l : list item) : list item :=
  match l with
  | [] => []
  | x :: r =>
      if bool_decide (dedup_key x ∈ dedup_key <$> before)
      then first_occ_from (before ++ [x]) r
      else x :: first_occ_from (before ++ [x]) r
  end.

(** Newest first: no item is strictly older, by its [published_at], than
    its successor. *)
Fixpoint sorted_desc `{SentimentLib} (l : list item) : bool :=
  match l with
  | [] => true
  | x :: r =>
      match r with
      | [] => true
      | y :: _ => negb (str_lt (published_at x) (published_at y)) && sorted_desc r
      end
  end.

(** ** The pipeline *)

(** The instant of an aware value: its wall clock less its UTC offset. *)
Definition instant (d : datetime) : Z := wall d - default 0 (utcoffset d).

(** [a] is not before [b]: for aware values the instant of [a], its wall
    clock less its UTC offset, is at or after the instant of [b]. *)
Definition not_before (a b : datetime) : Prop :=
  match utcoffset a, utcoffset b with
  | Some oa, Some ob => wall b - ob <= wall a - oa
  | None, None => wall b <= wall a
  | _, _ => False
  end.

(** The start of the recency window of a run. *)
Definition window_start (c : config) (now : datetime) : datetime :=
  minus_hours now (window_hours c).

(** The normalized timestamp of an entry: its first date field, parsed and
    moved to the configured zone. *)
Definition entry_time `{DateLib} (c : config) (e : entry) : option datetime :=
  p ← first_present date_keys e;
  pa ← parse_date p (timezone c);
  fromisoformat pa.

(** The recency window as the specification words it, the trailing duration
    anchored at run time: the [window_hours] hours of elapsed time that end
    at [now]. *)
Definition in_window (c : config) (now dt : datetime) : Prop :=
  instant now - window_hours c * 3600000000 <= instant dt <= instant now.

(** What [scrape_section] returns, whatever the state of the process. *)
Definition section_result `{TextLib} `{HashLib} `{DateLib} `{SentimentLib}
    `{ReadabilityLib} (name : string) (c : config) (now : datetime)
    (s : session) : option (list item) :=
  match section_lookup name (sections c) with
  | None => None
  | Some sc =>
      match feed_entries s (sec_url sc) with
      | None => None
      | Some entries => scrape_entries c sc now (allow_extract c) s entries
      end
  end.

(** The items of all sections, in the order of the configuration; a
    section that raised contributes none. *)
Definition merged `{TextLib} `{HashLib} `{DateLib} `{SentimentLib}
    `{ReadabilityLib} (c : config) (now : datetime) (s : session)
    : list item :=
  concat ((λ name, default [] (section_result name c now s))
            <$> (map fst (sections c))).

(** The session in which the feed at [u] has the entries [es]. *)
Definition with_feed (s : session) (u : str) (es : list entry) : session :=
  {| feed_entries := λ u', if bool_decide (u' = u) then Some es
                           else feed_entries s u';
     page_response := page_response s |}.

(** The configuration with the extraction of article pages switched off. *)
Definition without_extract (c : config) : config :=
  {| timezone := timezone c;
     window_hours := window_hours c;
     allow_extract := false;
     rate_limit_seconds := rate_limit_seconds c;
     sections := sections c |}.

(** The text of an entry that is summarised: its [summary] when that is not
    empty, else its [description], else the empty string. *)
Definition summary_raw (e : entry) : str :=
  if opt_truthy (e !! "summary"%string) then opt_or (e !! "summary"%string) []
  else opt_or (e !! "description"%string) [].

(** The sum of the caps of the sections. *)
Definition total_cap (c : config) : Z :=
  foldr (λ ks acc, max_items ks.2 + acc) 0 (sections c).

(** ** Pauses *)

(** The pause in front of a fetch and the pause behind a section, as
    functions of the draw of the random generator. *)
Definition fetch_pause (r : Q) : Q := Qplus (8 # 10) (Qmult r (12 # 10)).

Definition section_pause (c : config) (r : Q) : Q :=
  Qmax (5 # 10) (Qmult (rate_limit_seconds c) (Qplus (5 # 10) r)).

(** The pauses of [n] sections in a row, the first draw being number [k]. *)
Fixpoint pauses (c : config) (draw : nat → Q) (k n : nat) : list Q :=
  match n with
  | O => []
  | S n' =>
      fetch_pause (draw k) :: section_pause c (draw (S k))
      :: pauses c draw (S (S k)) n'
  end.

(** ** Tags *)

(** A tag begins at the head of [s]: [<], one character or more other than
    [>], and [>]. *)
Definition tag_at (s : str) : bool :=
  match s with
  | [] => false
  | c :: r =>
      bool_decide (c = "<"%char)
      && match until_gt r with Some (S _) => true | _ => false end
  end.

(** A tag begins somewhere in [s]. *)
Fixpoint has_tag (s : str) : bool :=
  tag_at s || match s with [] => false | _ :: r => has_tag r end.

End Spec.

Import Spec.

(* ===================================================================== *)
(** * Strings: white space, slices, joins *)
(* ===================================================================== *)

Section StringFacts.

Lemma len_nonneg {A} (l : list A) : 0 <= len l.
Proof. unfold len. lia. Qed.

Lemma len_app {A} (a b : list A) : len (a ++ b) = len a + len b.
Proof. unfold len. rewrite length_app. lia. Qed.

Lemma dropwhile_length {A} (p : A -> bool) (l : list A) :
  (length (dropwhile p l) <= length l)%nat.
Proof.
  induction l as [|x l IH]; simpl; [lia|].
  destruct (p x); simpl; lia.
Qed.

Lemma lstrip_head s : from_option isspace false (head (lstrip s)) = false.
Proof.
  unfold lstrip. induction s as [|c s IH]; simpl; [done|].
  destruct (isspace c) eqn:E; [done|]. simpl. done.
Qed.

Lemma rstrip_length s : (length (rstrip s) <= length s)%nat.
Proof.
  induction s as [|c s IH]; simpl; [lia|].
  destruct (rstrip s); [destruct (isspace c)|]; simpl in *; lia.
Qed.

Lemma rstrip_last s : from_option isspace false (last (rstrip s)) = false.
Proof.
  induction s as [|c s IH]; simpl; [done|].
  destruct (rstrip s) as [|d r'] eqn:E.
  - destruct (isspace c) eqn:Ec; simpl; done.
  - change (last (c :: d :: r')) with (last (d :: r')). done.
Qed.

Lemma rstrip_head s :
  rstrip s = [] ∨ head (rstrip s) = head s.
Proof.
  destruct s as [|c s]; simpl; [by left|].
  destruct (rstrip s); [destruct (isspace c)|]; simpl; auto.
Qed.

Lemma strip_length s : (length (strip s) <= length s)%nat.
Proof.
  unfold strip, lstrip.
  pose proof (rstrip_length (dropwhile isspace s)).
  pose proof (dropwhile_length isspace s). lia.
Qed.

Lemma strip_no_outer_space s : no_outer_space (strip s).
Proof.
  split; unfold strip.
  - destruct (rstrip_head (lstrip s)) as [-> | ->]; [done|apply lstrip_head].
  - apply rstrip_last.
Qed.

Lemma rstrip_id s :
  from_option isspace false (last s) = false → rstrip s = s.
Proof.
  induction s as [|c s IH]; [done|].
  destruct s as [|d s].
  - simpl. by intros ->.
  - intros Hl. change (last (c :: d :: s)) with (last (d :: s)) in Hl.
    specialize (IH Hl). simpl in *. by rewrite IH.
Qed.

Lemma lstrip_id s :
  from_option isspace false (head s) = false → lstrip s = s.
Proof.
  destruct s as [|c s]; [done|]. unfold lstrip. cbn [head from_option dropwhile].
  by intros ->.
Qed.

Lemma strip_id s : no_outer_space s → strip s = s.
Proof.
  intros [Hh Hl]. unfold strip. rewrite (lstrip_id s Hh). by apply rstrip_id.
Qed.

Lemma strip_idemp s : strip (strip s) = strip s.
Proof. apply strip_id, strip_no_outer_space. Qed.

Lemma slice_to_len {A} (l : list A) (n : Z) :
  0 <= n → len (slice_to l n) <= n.
Proof.
  intros Hn. unfold slice_to, len.
  destruct (Z.leb_spec 0 n); [|lia].
  rewrite length_take. lia.
Qed.

Lemma slice_to_all {A} (l : list A) (n : Z) :
  len l <= n → slice_to l n = l.
Proof.
  intros Hn. unfold slice_to, len in *.
  destruct (Z.leb_spec 0 n); [|lia].
  apply take_ge. lia.
Qed.

End StringFacts.

(* ===================================================================== *)
(** * The summariser *)
(* ===================================================================== *)

Section Summarize.
Context `{TextLib}.

Lemma join_cons p ps :
  ps ≠ [] → join (lit " ") (p :: ps) = p ++ lit " " ++ join (lit " ") ps.
Proof. destruct ps; [done|]. done. Qed.

Lemma cost_join ps : ps ≠ [] → len (join (lit " ") ps) + 1 = cost ps.
Proof.
  induction ps as [|p ps IH]; [done|]. intros _.
  destruct ps as [|q ps].
  - simpl. lia.
  - rewrite join_cons by done. rewrite !len_app.
    change (cost (p :: q :: ps)) with (len p + 1 + cost (q :: ps)).
    rewrite <- IH by done. change (len (lit " ")) with 1. lia.
Qed.

Lemma cost_nonneg ps : 0 <= cost ps.
Proof.
  induction ps as [|p ps IH]; simpl; [lia|]. pose proof (len_nonneg p). lia.
Qed.

Lemma cost_app a b : cost (a ++ b) = cost a + cost b.
Proof. induction a as [|p a IH]; simpl; [lia|]. rewrite IH. lia. Qed.

(** The loop of [summarize] keeps the longest affordable run of leading
    sentences. *)
Lemma accumulate_take_fitting max_chars parts total sentences :
  accumulate max_chars parts total sentences
  = parts ++ take_fitting (max_chars - total)
               (List.filter truthy (map strip sentences)).
Proof.
  revert parts total.
  induction sentences as [|s rest IH]; intros parts total; simpl.
  - by rewrite app_nil_r.
  - destruct (truthy (strip s)) eqn:Et; simpl.
    + destruct (Z.gtb_spec (total + len (strip s) + 1) max_chars) as [Hgt|Hle].
      * destruct (Z.leb_spec (len (strip s) + 1) (max_chars - total));
          [lia|by rewrite app_nil_r].
      * destruct (Z.leb_spec (len (strip s) + 1) (max_chars - total)); [|lia].
        rewrite IH, <- app_assoc. simpl. do 3 f_equal. lia.
    + apply IH.
Qed.

Lemma take_fitting_split budget l :
  ∃ rest, l = take_fitting budget l ++ rest
          ∧ cost (take_fitting budget l) <= Z.max 0 budget
          ∧ match rest with
            | [] => True
            | s :: _ => cost (take_fitting budget l) + len s + 1 > budget
            end.
Proof.
  revert budget. induction l as [|s l IH]; intros budget; simpl.
  - exists []. repeat split; simpl; lia.
  - destruct (Z.leb_spec (len s + 1) budget) as [Hle|Hgt].
    + destruct (IH (budget - (len s + 1))) as (rest & Hl & Hc & Hr).
      exists rest. split; [simpl; congruence|]. split.
      * simpl. pose proof (len_nonneg s). lia.
      * destruct rest; [done|]. simpl. lia.
    + exists (s :: l). repeat split; simpl; lia.
Qed.

Lemma take_fitting_all budget l : cost l <= budget → take_fitting budget l = l.
Proof.
  revert budget. induction l as [|s l IH]; intros budget Hc; simpl in *; [done|].
  pose proof (cost_nonneg l).
  destruct (Z.leb_spec (len s + 1) budget); [|lia].
  f_equal. apply IH. lia.
Qed.

Lemma take_fitting_prefix budget l : take_fitting budget l `prefix_of` l.
Proof.
  destruct (take_fitting_split budget l) as (rest & Hl & _).
  by exists rest.
Qed.

Lemma trimmed_sentences_shape cleaned :
  Forall (λ p, no_outer_space p ∧ p ≠ []) (trimmed_sentences cleaned).
Proof.
  unfold trimmed_sentences. apply Forall_forall. intros p Hp.
  apply list_elem_of_In, filter_In in Hp as [Hin Ht].
  apply in_map_iff in Hin as (s & <- & _).
  split; [apply strip_no_outer_space|]. by destruct (strip s).
Qed.

Lemma join_no_outer_space ps :
  Forall (λ p, no_outer_space p ∧ p ≠ []) ps →
  no_outer_space (join (lit " ") ps) ∧ (ps ≠ [] → join (lit " ") ps ≠ []).
Proof.
  induction 1 as [|p ps [[Hh Hl] Hne] Hps [[IHh IHl] IHne]]; [done|].
  destruct ps as [|q ps]; [done|].
  rewrite join_cons by done.
  specialize (IHne ltac:(done)).
  split; [split|].
  - destruct p; [done|]. done.
  - rewrite app_assoc, last_app.
    destruct (last (join (lit " ") (q :: ps))) eqn:El; [done|].
    apply last_None in El. done.
  - destruct p; done.
Qed.

Lemma fallback_once cleaned max_chars :
  0 <= max_chars →
  strip (slice_to (strip (slice_to cleaned max_chars)) max_chars)
  = strip (slice_to cleaned max_chars).
Proof.
  intros Hm. rewrite slice_to_all; [apply strip_idemp|].
  pose proof (strip_length (slice_to cleaned max_chars)).
  pose proof (slice_to_len cleaned max_chars Hm). unfold len in *. lia.
Qed.

(** [summarize] in closed form. *)
Lemma summarize_closed_form text max_chars :
  0 <= max_chars → text ≠ [] →
  summarize text max_chars =
    match take_fitting max_chars (trimmed_sentences (cleaned_text text)) with
    | [] => strip (slice_to (cleaned_text text) max_chars)
    | parts => join (lit " ") parts
    end.
Proof.
  intros Hm Ht. unfold summarize.
  destruct text as [|c text]; [done|]. cbn [truthy negb].
  rewrite accumulate_take_fitting. cbn [app]. rewrite Z.sub_0_r.
  fold (trimmed_sentences (cleaned_text (c :: text))).
  set (cleaned := cleaned_text (c :: text)).
  destruct (take_fitting max_chars (trimmed_sentences cleaned)) as [|p ps] eqn:Ep.
  - by apply fallback_once.
  - destruct (take_fitting_split max_chars (trimmed_sentences cleaned))
      as (rest & Hl & Hc & _).
    rewrite Ep in Hc, Hl.
    assert (Hshape : Forall (λ p, no_outer_space p ∧ p ≠ []) (p :: ps)).
    { pose proof (trimmed_sentences_shape cleaned) as Hall.
      rewrite Hl in Hall. by apply Forall_app in Hall as [? _]. }
    apply join_no_outer_space in Hshape as [Hno _].
    rewrite slice_to_all; [by apply strip_id|].
    rewrite <- cost_join in Hc by done. lia.
Qed.

(** C4. For every text and every [max_chars >= 0], the summary has at most
    [max_chars] characters and neither begins nor ends with white space;
    the empty text gives the empty summary. *)
Theorem summarize_length_bound (text : str) (max_chars : Z) :
  0 <= max_chars →
  len (summarize text max_chars) <= max_chars
  ∧ no_outer_space (summarize text max_chars)
  ∧ summarize [] max_chars = [].
Proof.
  intros Hm. split; [|split; [|done]].
  - unfold summarize. destruct (negb (truthy text)); [by unfold len|].
    match goal with |- len (strip (slice_to ?x _)) <= _ =>
      pose proof (strip_length (slice_to x max_chars));
      pose proof (slice_to_len x max_chars Hm) end.
    unfold len in *. lia.
  - unfold summarize. destruct (negb (truthy text)); [done|].
    apply strip_no_outer_space.
Qed.

(** C6, as the code has it. For every non-empty text and [max_chars >= 0]
    the trimmed, non-empty sentences split into the parts kept and the
    rest: each sentence is charged its length plus one for a separator,
    the parts kept cost at most [max_chars], the first sentence of the
    rest (if any) would take the cost above [max_chars], and no later
    sentence is looked at.  The summary is the parts joined by single
    spaces, hence strictly shorter than [max_chars]; when no sentence is
    kept it is the first [max_chars] characters of the cleaned text,
    trimmed. *)
Theorem summarize_greedy (text : str) (max_chars : Z) :
  0 <= max_chars → text ≠ [] →
  ∃ parts rest,
    trimmed_sentences (cleaned_text text) = parts ++ rest
    ∧ cost parts <= max_chars
    ∧ match rest with
      | [] => True
      | s :: _ => cost parts + len s + 1 > max_chars
      end
    ∧ (parts ≠ [] → len (join (lit " ") parts) < max_chars)
    ∧ summarize text max_chars =
        match parts with
        | [] => strip (slice_to (cleaned_text text) max_chars)
        | _ => join (lit " ") parts
        end.
Proof.
  intros Hm Ht.
  destruct (take_fitting_split max_chars (trimmed_sentences (cleaned_text text)))
    as (rest & Hl & Hc & Hr).
  exists (take_fitting max_chars (trimmed_sentences (cleaned_text text))), rest.
  split; [done|]. split; [lia|]. split; [done|]. split.
  - intros Hne. pose proof (cost_join _ Hne). lia.
  - rewrite summarize_closed_form by done.
    by destruct (take_fitting max_chars (trimmed_sentences (cleaned_text text))).
Qed.

(** C5, as the code has it. For every non-empty text whose cleaned form
    has at most [max_chars] characters, whose sentences, trimmed and joined
    by single spaces, give back the trimmed cleaned text, and whose trimmed
    cleaned text is strictly shorter than [max_chars] or is one sentence,
    the summary is the cleaned, trimmed text. *)
Theorem summarize_roundtrip (text : str) (max_chars : Z) :
  text ≠ [] →
  len (cleaned_text text) <= max_chars →
  join (lit " ") (trimmed_sentences (cleaned_text text))
    = strip (cleaned_text text) →
  (len (strip (cleaned_text text)) < max_chars
   ∨ (length (trimmed_sentences (cleaned_text text)) <= 1)%nat) →
  summarize text max_chars = strip (cleaned_text text).
Proof.
  intros Ht Hlen Hjoin Hcase.
  pose proof (len_nonneg (cleaned_text text)).
  rewrite summarize_closed_form by (done || lia).
  set (cleaned := cleaned_text text) in *.
  destruct (trimmed_sentences cleaned) as [|p ps] eqn:Ets.
  - simpl. by rewrite slice_to_all.
  - assert (Hcost : cost (p :: ps) = len (strip cleaned) + 1).
    { rewrite <- Hjoin. symmetry. by apply cost_join. }
    destruct (Z.le_gt_cases (cost (p :: ps)) max_chars) as [Hfit|Hover].
    + rewrite take_fitting_all by done. done.
    + destruct Hcase as [Hlt|Hone]; [lia|].
      destruct ps; [|simpl in Hone; lia].
      simpl in Hover |- *.
      destruct (Z.leb_spec (len p + 1) max_chars); [lia|].
      by rewrite slice_to_all.
Qed.

End Summarize.

Lemma summarize_length_bound_witness :
  0 <= 10
  ∧ (len (summarize (lit "This is a very long sentence that cannot fit.") 10) <= 10
     ∧ no_outer_space
         (summarize (lit "This is a very long sentence that cannot fit.") 10)
     ∧ summarize [] 10 = []).
Proof. split; [lia|]. apply (summarize_length_bound _ 10). lia. Defined.

(** The scenario of the specification: one long sentence and a limit of 10. *)
Example summarize_long_sentence :
  summarize (lit "This is a very long sentence that cannot fit.") 10
  = lit "This is a".
Proof. reflexivity. Qed.

(** With a limit of 21 the two sentences joined by a space would have exactly
    21 characters, yet the second one is not added. *)
Lemma summarize_greedy_counterexample :
  summarize (lit "Hello there. Bye now.") 21 = lit "Hello there."
  ∧ spec_summarize (lit "Hello there. Bye now.") 21 = lit "Hello there. Bye now."
  ∧ len (join (lit " ") [lit "Hello there."; lit "Bye now."]) <= 21.
Proof. split; [reflexivity|]. split; [reflexivity|]. vm_compute. discriminate. Qed.

Lemma summarize_greedy_witness :
  0 <= 21 ∧ lit "Hello there. Bye now." ≠ []
  ∧ ∃ parts rest,
      trimmed_sentences (cleaned_text (lit "Hello there. Bye now.")) = parts ++ rest
      ∧ cost parts <= 21
      ∧ match rest with
        | [] => True
        | s :: _ => cost parts + len s + 1 > 21
        end
      ∧ (parts ≠ [] → len (join (lit " ") parts) < 21)
      ∧ summarize (lit "Hello there. Bye now.") 21 =
          match parts with
          | [] => strip (slice_to (cleaned_text (lit "Hello there. Bye now.")) 21)
          | _ => join (lit " ") parts
          end.
Proof.
  split; [lia|]. split; [discriminate|].
  apply (summarize_greedy (lit "Hello there. Bye now.") 21); [lia|discriminate].
Defined.

(** Two sentences two spaces apart: the cleaned text fits into the limit, and
    the summary has a single space between them. *)
Lemma summarize_roundtrip_counterexample :
  len (cleaned_text (lit "Hello there.  Bye now.")) <= 500
  ∧ summarize (lit "Hello there.  Bye now.") 500 = lit "Hello there. Bye now."
  ∧ strip (cleaned_text (lit "Hello there.  Bye now.")) = lit "Hello there.  Bye now."
  ∧ summarize (lit "Hello there.  Bye now.") 500
    ≠ strip (cleaned_text (lit "Hello there.  Bye now.")).
Proof.
  split; [vm_compute; discriminate|]. split; [reflexivity|].
  split; [reflexivity|]. vm_compute. discriminate.
Qed.

Lemma summarize_roundtrip_witness :
  lit "Hello there. Bye now." ≠ []
  ∧ len (cleaned_text (lit "Hello there. Bye now.")) <= 500
  ∧ join (lit " ") (trimmed_sentences (cleaned_text (lit "Hello there. Bye now.")))
    = strip (cleaned_text (lit "Hello there. Bye now."))
  ∧ summarize (lit "Hello there. Bye now.") 500
    = strip (cleaned_text (lit "Hello there. Bye now.")).
Proof.
  split; [discriminate|]. split; [vm_compute; discriminate|].
  split; [reflexivity|].
  apply (summarize_roundtrip (lit "Hello there. Bye now.") 500).
  - discriminate.
  - vm_compute; discriminate.
  - reflexivity.
  - left. vm_compute. reflexivity.
Defined.

(* ===================================================================== *)
(** * The article type *)
(* ===================================================================== *)

Section ArticleType.

Lemma starts_with_spec p s :
  starts_with p s = true ↔ ∃ post, s = p ++ post.
Proof.
  revert s. induction p as [|a p IH]; intros s; simpl.
  - split; [intros _; by exists s|done].
  - destruct s as [|b s].
    + split; [done|]. intros [post Hp]. discriminate.
    + rewrite andb_true_iff, bool_decide_eq_true, IH. split.
      * intros [-> [post ->]]. by exists post.
      * intros [post Hp]. injection Hp as -> ->. eauto.
Qed.

Lemma contains_spec needle hay :
  contains needle hay = true ↔ ∃ pre post, hay = pre ++ needle ++ post.
Proof.
  induction hay as [|c hay IH]; simpl.
  - rewrite orb_false_r, starts_with_spec. split.
    + intros [post ->]. by exists [], post.
    + intros (pre & post & Hp). destruct pre; [by exists post|done].
  - rewrite orb_true_iff, starts_with_spec, IH. split.
    + intros [[post ->] | (pre & post & ->)].
      * by exists [], post.
      * by exists (c :: pre), post.
    + intros (pre & post & Hp). destruct pre as [|d pre].
      * left. by exists post.
      * right. injection Hp as -> ->. by exists pre, post.
Qed.

Lemma lower_char_slash c : lower_char c = "/"%char → c = "/"%char.
Proof.
  destruct c as [[] [] [] [] [] [] [] []]; vm_compute; congruence.
Qed.

Lemma lower_app a b : lower (a ++ b) = lower a ++ lower b.
Proof. apply map_app. Qed.

Lemma lower_eq_app s a b :
  lower s = a ++ b → ∃ a' b', s = a' ++ b' ∧ lower a' = a ∧ lower b' = b.
Proof. apply map_eq_app. Qed.

Lemma lower_eq_slash s : lower s = lit "/" → s = lit "/".
Proof.
  destruct s as [|c [|d s]]; try discriminate.
  intros Hs. injection Hs as Hc. by rewrite (lower_char_slash c Hc).
Qed.

(** C7, as the code has it. The article type is "Opinion" exactly when the
    URL string, anywhere in it, has a segment enclosed by two slashes that
    is [opinion] up to case, and "News" otherwise; title and summary play
    no part. *)
Theorem detect_article_type_slashes (url : str) :
  (detect_article_type url = lit "Opinion"
   ↔ ∃ pre seg post,
       url = pre ++ lit "/" ++ seg ++ lit "/" ++ post
       ∧ lower seg = lit "opinion")
  ∧ (detect_article_type url = lit "Opinion"
     ∨ detect_article_type url = lit "News")
  ∧ ∀ (S : SentimentLib) (title summary : str),
      article_type (compute_bias url title summary) = detect_article_type url.
Proof.
  split; [|split].
  - unfold detect_article_type.
    destruct (contains (lit "/opinion/") (lower url)) eqn:Ec.
    + split; [intros _|done].
      apply contains_spec in Ec as (pre & post & Hu).
      change (lit "/opinion/") with (lit "/" ++ lit "opinion" ++ lit "/") in Hu.
      apply lower_eq_app in Hu as (pre' & r1 & -> & <- & Hu).
      apply lower_eq_app in Hu as (r2 & post' & -> & Hr2 & <-).
      apply lower_eq_app in Hr2 as (sl1 & r3 & -> & Hs1 & Hr3).
      apply lower_eq_app in Hr3 as (seg & sl2 & -> & Hseg & Hs2).
      apply lower_eq_slash in Hs1 as ->. apply lower_eq_slash in Hs2 as ->.
      exists pre', seg, post'. split; [|done].
      by rewrite <- !app_assoc.
    + split; [discriminate|]. intros (pre & seg & post & -> & Hseg).
      assert (contains (lit "/opinion/")
                (lower (pre ++ lit "/" ++ seg ++ lit "/" ++ post)) = true)
        as Hc; [|congruence].
      apply contains_spec. exists (lower pre), (lower post).
      rewrite !lower_app, Hseg. done.
  - unfold detect_article_type.
    destruct (contains (lit "/opinion/") (lower url)); auto.
  - done.
Qed.

End ArticleType.

(** A URL whose path ends in the segment [opinion] is classified as news, and
    a URL that mentions [/opinion/] in its query only is classified as
    opinion. *)
Lemma detect_article_type_counterexample :
  has_opinion_segment (lit "https://www.cbc.ca/opinion") = true
  ∧ detect_article_type (lit "https://www.cbc.ca/opinion") = lit "News"
  ∧ has_opinion_segment (lit "https://www.cbc.ca/search?from=/opinion/") = false
  ∧ detect_article_type (lit "https://www.cbc.ca/search?from=/opinion/")
    = lit "Opinion".
Proof. repeat split; reflexivity. Qed.

(** The scenarios of the specification. *)
Example detect_article_type_news :
  detect_article_type (lit "https://cbc.ca/news/politics/budget-1") = lit "News"
  ∧ has_opinion_segment (lit "https://cbc.ca/news/politics/budget-1") = false.
Proof. split; reflexivity. Qed.

Example detect_article_type_opinion :
  detect_article_type (lit "https://cbc.ca/news/Opinion/budget-1") = lit "Opinion"
  ∧ has_opinion_segment (lit "https://cbc.ca/news/Opinion/budget-1") = true.
Proof. split; reflexivity. Qed.

(* ===================================================================== *)
(** * The order on [published_at] and the sort *)
(* ===================================================================== *)

Section Order.

Lemma ord_inj a b : ord a = ord b → a = b.
Proof.
  unfold ord. intros Hab. apply (inj Z.of_N) in Hab.
  rewrite <- (ascii_N_embedding a), <- (ascii_N_embedding b). by rewrite Hab.
Qed.

Lemma str_lt_irrefl a : str_lt a a = false.
Proof.
  induction a as [|x a IH]; [done|]. simpl.
  rewrite Z.ltb_irrefl, Z.eqb_refl. done.
Qed.

Lemma str_lt_asym a b : str_lt a b = true → str_lt b a = false.
Proof.
  revert b. induction a as [|x a IH]; intros [|y b]; simpl; try done.
  destruct (Z.ltb_spec (ord x) (ord y)), (Z.ltb_spec (ord y) (ord x)),
    (Z.eqb_spec (ord x) (ord y)), (Z.eqb_spec (ord y) (ord x));
    simpl; try lia; try done.
  apply IH.
Qed.

Lemma str_ge_trans a b c :
  str_lt a b = false → str_lt b c = false → str_lt a c = false.
Proof.
  revert b c. induction a as [|x a IH]; intros [|y b] [|z c]; simpl; try done.
  destruct (Z.ltb_spec (ord x) (ord y)), (Z.ltb_spec (ord y) (ord z)),
    (Z.ltb_spec (ord x) (ord z)), (Z.eqb_spec (ord x) (ord y)),
    (Z.eqb_spec (ord y) (ord z)), (Z.eqb_spec (ord x) (ord z));
    simpl; try lia; try done.
  apply IH.
Qed.

Lemma str_lt_total a b : str_lt a b = false → str_lt b a = false → a = b.
Proof.
  revert b. induction a as [|x a IH]; intros [|y b]; simpl; try done.
  destruct (Z.ltb_spec (ord x) (ord y)), (Z.ltb_spec (ord y) (ord x)),
    (Z.eqb_spec (ord x) (ord y)), (Z.eqb_spec (ord y) (ord x));
    simpl; try lia; try done.
  intros Hab Hba. f_equal; [by apply ord_inj|by apply IH].
Qed.

Context `{SentimentLib}.

Lemma sorted_desc_cons x l :
  sorted_desc (x :: l) = true →
  sorted_desc l = true
  ∧ Forall (λ y, str_lt (published_at x) (published_at y) = false) l.
Proof.
  revert x. induction l as [|y l IH]; intros x Hs; [done|].
  change (negb (str_lt (published_at x) (published_at y)) && sorted_desc (y :: l)
          = true) in Hs.
  apply andb_true_iff in Hs as [Hxy Hs]. apply negb_true_iff in Hxy.
  split; [done|]. constructor; [done|].
  destruct (IH y Hs) as [_ Hall].
  eapply Forall_impl; [exact Hall|]. intros z Hyz. simpl in Hyz.
  by eapply str_ge_trans.
Qed.

(** In a list sorted newest first, no item is strictly older than an item
    behind it. *)
Lemma sorted_desc_lookup l i j x y :
  sorted_desc l = true → l !! i = Some x → l !! j = Some y → (i < j)%nat →
  str_lt (published_at x) (published_at y) = false.
Proof.
  revert i j. induction l as [|z l IH]; intros i j Hs Hi Hj Hij; [done|].
  destruct (sorted_desc_cons z l Hs) as [Hs' Hall].
  destruct i as [|i]; destruct j as [|j]; try lia; simpl in *.
  - injection Hi as ->.
    rewrite Forall_forall in Hall. apply Hall.
    by eapply list_elem_of_lookup_2.
  - eapply IH; eauto. lia.
Qed.

Lemma insert_desc_sorted x l :
  sorted_desc l = true → sorted_desc (insert_desc x l) = true.
Proof.
  induction l as [|y l IH]; intros Hs; [done|].
  cbn [insert_desc].
  destruct (str_lt (published_at x) (published_at y)) eqn:Exy.
  - destruct (sorted_desc_cons y l Hs) as [Hs' Hall].
    specialize (IH Hs').
    destruct l as [|z l].
    + cbn. by rewrite (str_lt_asym _ _ Exy).
    + cbn [insert_desc] in IH |- *.
      destruct (str_lt (published_at x) (published_at z)) eqn:Exz.
      * change (negb (str_lt (published_at y) (published_at z))
                && sorted_desc (z :: insert_desc x l) = true).
        apply Forall_cons in Hall as [-> _]. done.
      * change (negb (str_lt (published_at y) (published_at x))
                && sorted_desc (x :: z :: l) = true).
        by rewrite (str_lt_asym _ _ Exy).
  - change (negb (str_lt (published_at x) (published_at y))
            && sorted_desc (y :: l) = true).
    by rewrite Exy.
Qed.

(** The sort of the pipeline yields a list sorted newest first. *)
Lemma sort_desc_sorted l : sorted_desc (sort_desc l) = true.
Proof.
  induction l as [|x l IH]; [done|]. simpl. by apply insert_desc_sorted.
Qed.

Lemma insert_desc_perm x l : insert_desc x l ≡ₚ x :: l.
Proof.
  induction l as [|y l IH]; [done|]. simpl.
  destruct (str_lt (published_at x) (published_at y)); [|done].
  rewrite IH. apply Permutation_swap.
Qed.

(** The sort neither adds nor loses items. *)
Lemma sort_desc_perm l : sort_desc l ≡ₚ l.
Proof.
  induction l as [|x l IH]; [done|]. simpl.
  rewrite insert_desc_perm. by rewrite IH.
Qed.

End Order.

(* ===================================================================== *)
(** * Deduplication *)
(* ===================================================================== *)

Section Deduplicate.
Context `{SentimentLib}.

Implicit Types (l before : list item) (x y : item).

Lemma dedup_loop_acc seen deduped l :
  dedup_loop seen deduped l = deduped ++ dedup_loop seen [] l.
Proof.
  revert seen deduped. induction l as [|x l IH]; intros seen deduped; simpl.
  - by rewrite app_nil_r.
  - case_bool_decide; [apply IH|].
    rewrite (IH _ (deduped ++ [x])), (IH _ [x]). by rewrite <- app_assoc.
Qed.

(** The loop with its [seen] set keeps the first occurrences. *)
Lemma dedup_loop_first_occ seen before l :
  (∀ k, k ∈ seen ↔ k ∈ dedup_key <$> before) →
  dedup_loop seen [] l = first_occ_from before l.
Proof.
  revert seen before. induction l as [|x l IH]; intros seen before Hs; simpl.
  - done.
  - destruct (decide (dedup_key x ∈ seen)) as [Hin|Hnin].
    + rewrite (bool_decide_eq_true_2 _ Hin).
      rewrite bool_decide_eq_true_2 by (by apply Hs).
      apply IH. intros k. rewrite fmap_app, elem_of_app, <- Hs. simpl.
      rewrite list_elem_of_singleton. split; [tauto|].
      intros [?| ->]; done.
    + rewrite (bool_decide_eq_false_2 _ Hnin).
      rewrite bool_decide_eq_false_2 by (by rewrite <- Hs).
      rewrite dedup_loop_acc. simpl. f_equal. apply IH.
      intros k. rewrite fmap_app, elem_of_app, elem_of_union, <- Hs. simpl.
      rewrite elem_of_singleton, list_elem_of_singleton. tauto.
Qed.

Lemma deduplicate_first_occ l : deduplicate l = first_occ_from [] l.
Proof. apply dedup_loop_first_occ. intros k. set_solver. Qed.

Lemma first_occ_from_ext before1 before2 l :
  (∀ k, k ∈ dedup_key <$> before1 ↔ k ∈ dedup_key <$> before2) →
  first_occ_from before1 l = first_occ_from before2 l.
Proof.
  revert before1 before2. induction l as [|x l IH]; intros b1 b2 Hb; [done|].
  simpl.
  assert (first_occ_from (b1 ++ [x]) l = first_occ_from (b2 ++ [x]) l) as ->.
  { apply IH. intros k. rewrite !fmap_app, !elem_of_app, Hb. done. }
  by rewrite (bool_decide_ext _ _ (Hb (dedup_key x))).
Qed.

Lemma first_occ_from_app before l1 l2 :
  first_occ_from before (l1 ++ l2)
  = first_occ_from before l1 ++ first_occ_from (before ++ l1) l2.
Proof.
  revert before. induction l1 as [|x l1 IH]; intros before; simpl.
  - by rewrite app_nil_r.
  - rewrite IH, <- app_assoc. simpl. by case_bool_decide.
Qed.

Lemma first_occ_from_sublist before l : first_occ_from before l `sublist_of` l.
Proof.
  revert before. induction l as [|x l IH]; intros before; simpl; [done|].
  case_bool_decide; [by apply sublist_cons|by apply sublist_skip].
Qed.

Lemma first_occ_from_keys before l k :
  k ∈ dedup_key <$> first_occ_from before l →
  (k ∉ dedup_key <$> before) ∧ k ∈ dedup_key <$> l.
Proof.
  revert before. induction l as [|x l IH]; intros before; simpl.
  - by intros ?%elem_of_nil.
  - assert (k ∈ dedup_key <$> first_occ_from (before ++ [x]) l →
            (k ∉ dedup_key <$> before) ∧ k ∈ dedup_key x :: (dedup_key <$> l)).
    { intros [Hn Hin]%IH. rewrite fmap_app, elem_of_app in Hn.
      split; [tauto|by right]. }
    case_bool_decide; [done|].
    rewrite fmap_cons, elem_of_cons. intros [->|?]; [|auto].
    split; [done|by left].
Qed.

Lemma first_occ_from_NoDup before l :
  NoDup (dedup_key <$> first_occ_from before l).
Proof.
  revert before. induction l as [|x l IH]; intros before; simpl.
  - constructor.
  - case_bool_decide; [apply IH|].
    rewrite fmap_cons. constructor; [|apply IH].
    intros [Hn _]%first_occ_from_keys. apply Hn.
    rewrite fmap_app, elem_of_app. right. simpl. by left.
Qed.

Lemma first_occ_from_covers before l k :
  k ∈ dedup_key <$> l →
  k ∈ dedup_key <$> before ∨ k ∈ dedup_key <$> first_occ_from before l.
Proof.
  revert before. induction l as [|x l IH]; intros before; simpl.
  - by intros ?%elem_of_nil.
  - rewrite elem_of_cons. intros [->|Hk].
    + case_bool_decide; [by left|]. right. rewrite fmap_cons. by left.
    + destruct (IH (before ++ [x]) Hk) as [Hb|Ho].
      * rewrite fmap_app, elem_of_app in Hb. simpl in Hb.
        rewrite list_elem_of_singleton in Hb.
        destruct Hb as [?| ->]; [by left|].
        case_bool_decide; [by left|]. right. rewrite fmap_cons. by left.
      * right. case_bool_decide; [done|]. rewrite fmap_cons. by right.
Qed.

(** A list without repeated keys, none of them met before, is kept whole. *)
Lemma first_occ_from_fixed before l :
  NoDup (dedup_key <$> l) →
  (∀ k, k ∈ dedup_key <$> l → k ∉ dedup_key <$> before) →
  first_occ_from before l = l.
Proof.
  revert before. induction l as [|x l IH]; intros before Hnd Hdis; [done|].
  simpl. rewrite fmap_cons in Hnd. apply NoDup_cons in Hnd as [Hx Hnd].
  case_bool_decide as Hin.
  - exfalso. eapply Hdis; [|exact Hin]. rewrite fmap_cons. by left.
  - f_equal. apply IH; [done|]. intros k Hk.
    rewrite fmap_app, elem_of_app. simpl. rewrite list_elem_of_singleton.
    intros [Hb| ->]; [|done].
    eapply Hdis; [|exact Hb]. rewrite fmap_cons. by right.
Qed.

(** Every item kept stands in the input with no item of its key in front. *)
Lemma first_occ_from_position before l x :
  x ∈ first_occ_from before l →
  ∃ l1 l2, l = l1 ++ x :: l2 ∧ dedup_key x ∉ dedup_key <$> (before ++ l1).
Proof.
  revert before. induction l as [|z l IH]; intros before; simpl.
  - by intros ?%elem_of_nil.
  - assert (x ∈ first_occ_from (before ++ [z]) l →
            ∃ l1 l2, z :: l = l1 ++ x :: l2
                     ∧ dedup_key x ∉ dedup_key <$> (before ++ l1)).
    { intros (l1 & l2 & -> & Hn)%IH. exists (z :: l1), l2. split; [done|].
      by rewrite <- app_assoc in Hn. }
    case_bool_decide as Hin; [done|].
    rewrite elem_of_cons. intros [->|?]; [|auto].
    exists [], l. split; [done|]. by rewrite app_nil_r.
Qed.

(** An item whose key stands in front of it is dropped: the result is the
    result for the list without it. *)
Lemma deduplicate_later_dropped l1 x l2 :
  dedup_key x ∈ dedup_key <$> l1 →
  deduplicate (l1 ++ x :: l2) = deduplicate (l1 ++ l2).
Proof.
  intros Hin. rewrite !deduplicate_first_occ, !first_occ_from_app. simpl.
  rewrite bool_decide_eq_true_2 by done. f_equal.
  apply first_occ_from_ext. intros k.
  rewrite !fmap_app, !elem_of_app. simpl. rewrite list_elem_of_singleton.
  split; [|tauto]. intros [?| ->]; done.
Qed.

(** An item with no item of its key in front of it is kept, in its place. *)
Lemma deduplicate_first_kept l1 x l2 :
  dedup_key x ∉ dedup_key <$> l1 →
  deduplicate (l1 ++ x :: l2)
  = deduplicate l1 ++ x :: first_occ_from (l1 ++ [x]) l2.
Proof.
  intros Hin. rewrite !deduplicate_first_occ, !first_occ_from_app. simpl.
  by rewrite bool_decide_eq_false_2 by done.
Qed.

(** C10. [deduplicate] keeps a subsequence of its input, every kept item
    being the first of its key there; no two kept items share a key; and
    deduplicating again changes nothing. *)
Theorem deduplicate_filter l :
  deduplicate l `sublist_of` l
  ∧ (∀ x, x ∈ deduplicate l →
       ∃ l1 l2, l = l1 ++ x :: l2 ∧ dedup_key x ∉ dedup_key <$> l1)
  ∧ deduplicate l = first_occ_from [] l
  ∧ NoDup (dedup_key <$> deduplicate l)
  ∧ deduplicate (deduplicate l) = deduplicate l.
Proof.
  rewrite !deduplicate_first_occ. repeat split.
  - apply first_occ_from_sublist.
  - intros x Hx. by apply first_occ_from_position in Hx.
  - apply first_occ_from_NoDup.
  - apply first_occ_from_fixed; [apply first_occ_from_NoDup|].
    intros k _ Hk. by apply elem_of_nil in Hk.
Qed.

(** C3. Take any notion of one item being older than another, and a list
    sorted newest first under it: no item is older than an item behind it.
    [deduplicate] works with the key [(url, lowercased title)]: an item is
    kept, in its place, when no item in front of it has its key, and dropped
    when one has.  So of two items with one key and different timestamps
    (one of them older than the other), the one behind is not in the result,
    the one in front is in it when it is the first of its key, and in any
    case the item of that key in the result stands at or in front of it. *)
Theorem deduplicate_keeps_newest (older : item → item → Prop) l :
  (∀ i j x y, l !! i = Some x → l !! j = Some y → (i < j)%nat → ¬ older x y) →
  (∀ x, dedup_key x = (url x, lower (title x)))
  ∧ (∀ l1 x l2, l = l1 ++ x :: l2 →
       if bool_decide (dedup_key x ∈ dedup_key <$> l1)
       then deduplicate l = deduplicate (l1 ++ l2)
       else deduplicate l = deduplicate l1 ++ x :: first_occ_from (l1 ++ [x]) l2)
  ∧ (∀ i j x y,
       l !! i = Some x → l !! j = Some y → (i < j)%nat →
       dedup_key x = dedup_key y → older x y ∨ older y x →
       (y ∉ deduplicate l)
       ∧ (dedup_key x ∉ dedup_key <$> take i l → x ∈ deduplicate l)
       ∧ ∃ k z, (k <= i)%nat ∧ l !! k = Some z ∧ z ∈ deduplicate l
                ∧ dedup_key z = dedup_key x).
Proof.
  intros Hs. split; [done|]. split.
  - intros l1 x l2 ->. case_bool_decide.
    + by apply deduplicate_later_dropped.
    + by apply deduplicate_first_kept.
  - intros i j x y Hi Hj Hij Hk Hpa.
    assert (Hpos : ∀ z, z ∈ deduplicate l → dedup_key z = dedup_key x →
              ∃ k, (k <= i)%nat ∧ l !! k = Some z).
    { intros z Hz Hkz. rewrite deduplicate_first_occ in Hz.
      apply first_occ_from_position in Hz as (l1 & l2 & Hl & Hn).
      simpl in Hn.
      assert (l !! length l1 = Some z) as Hzl
        by (rewrite Hl; apply list_lookup_middle; done).
      destruct (decide (length l1 <= i)%nat) as [Hle|Hgt]; [eauto|].
      exfalso. apply Hn. rewrite Hkz.
      apply list_elem_of_fmap. exists x. split; [done|].
      apply list_elem_of_lookup. exists i.
      rewrite Hl, lookup_app_l in Hi by lia. done. }
    split; [|split].
    + intros Hy. destruct (Hpos y Hy (eq_sym Hk)) as (k & Hki & Hky).
      destruct (decide (k = i)) as [->|Hne].
      * rewrite Hi in Hky. injection Hky as ->.
        pose proof (Hs i j y y Hi Hj Hij). tauto.
      * pose proof (Hs k i y x Hky Hi ltac:(lia)).
        pose proof (Hs i j x y Hi Hj Hij). tauto.
    + intros Hfirst.
      rewrite <- (take_drop_middle l i x Hi).
      rewrite deduplicate_first_kept by done.
      apply elem_of_app. right. by left.
    + destruct (first_occ_from_covers [] l (dedup_key x)) as [Hb|Ho].
      * apply list_elem_of_fmap. exists x. split; [done|].
        by eapply list_elem_of_lookup_2.
      * by apply elem_of_nil in Hb.
      * rewrite <- deduplicate_first_occ in Ho.
        apply list_elem_of_fmap in Ho as (z & Hkz & Hz).
        destruct (Hpos z Hz (eq_sym Hkz)) as (k & Hki & Hkz').
        exists k, z. done.
Qed.

End Deduplicate.

Example deduplicate_example_result :
  sorted_desc deduplicate_example = true
  ∧ deduplicate deduplicate_example = take 2 deduplicate_example.
Proof. split; vm_compute; reflexivity. Qed.

Lemma deduplicate_keeps_newest_witness :
  sorted_desc deduplicate_example = true
  ∧ (example_item (Some (lit "https://cbc.ca/news/a-1")) (lit "BUDGET 2025")
       (lit "2025-11-05T04:00:00-05:00")) ∉ deduplicate deduplicate_example.
Proof.
  assert (Hs : sorted_desc deduplicate_example = true) by (vm_compute; reflexivity).
  split; [exact Hs|].
  destruct (deduplicate_keeps_newest
              (λ a b, str_lt (published_at a) (published_at b) = true)
              deduplicate_example) as (_ & _ & Hpair).
  - intros i j x y Hi Hj Hij.
    rewrite (sorted_desc_lookup deduplicate_example i j x y Hs Hi Hj Hij).
    discriminate.
  - refine (proj1 (Hpair 0%nat 2%nat _ _ eq_refl eq_refl _ _ _)).
    + lia.
    + vm_compute; reflexivity.
    + right. vm_compute; reflexivity.
Defined.

(* ===================================================================== *)
(** * The pipeline: sections, recency window, snapshot *)
(* ===================================================================== *)

Section Pipeline.
Context `{TextLib} `{HashLib} `{DateLib} `{SentimentLib} `{ReadabilityLib}.

Implicit Types (c : config) (sc : section_cfg) (now ws : datetime)
  (s : session) (w : world) (e : entry) (it : item).

(** ** The state plays no part in the result *)

Lemma scrape_section_value name c now s w :
  (scrape_section name c now (allow_extract c) s w).1 = section_result name c now s.
Proof.
  unfold scrape_section, section_result.
  destruct (section_lookup name (sections c)) as [sc|]; [|done].
  unfold bind, fetch_feed_bytes, bind, random_random, time_sleep, ret. simpl.
  by destruct (feed_entries s (sec_url sc)).
Qed.

Lemma sections_loop_value c now s all_items keys w :
  (sections_loop c now (allow_extract c) s all_items keys w).1
  = all_items
    ++ concat ((λ name, default [] (section_result name c now s)) <$> keys).
Proof.
  revert all_items w. induction keys as [|k keys IH]; intros all_items w.
  - simpl. by rewrite app_nil_r.
  - cbn [sections_loop]. unfold bind at 1.
    pose proof (scrape_section_value k c now s w) as Hv.
    destruct (scrape_section k c now (allow_extract c) s w) as [r w1].
    simpl in Hv. subst r.
    unfold bind, random_random, time_sleep. simpl.
    rewrite IH. destruct (section_result k c now s); simpl.
    + by rewrite <- app_assoc.
    + done.
Qed.

(** The snapshot a run writes. *)
Lemma main_value c now s w :
  (main c now s w).1
  = {| source := lit "CBC News";
       generated_at := isoformat now;
       snap_timezone := timezone c;
       items := deduplicate (sort_desc (merged c now s)) |}.
Proof.
  unfold main, bind.
  pose proof (sections_loop_value c now s [] (map fst (sections c)) w) as Hv.
  destruct (sections_loop c now (allow_extract c) s [] (map fst (sections c)) w)
    as [all_items w1].
  simpl in Hv. subst all_items. done.
Qed.

(** ** What holds of every item of the loop holds of every item written *)

Lemma entries_loop_Forall (P : item → Prop) sname tz ws allow s acc es r :
  (∀ e it, loop_body sname tz ws allow s e = Append it → P it) →
  Forall P acc →
  entries_loop sname tz ws allow s acc es = Some r → Forall P r.
Proof.
  intros HP. revert acc. induction es as [|e es IH]; intros acc Hacc; simpl.
  - by intros [= <-].
  - destruct (loop_body sname tz ws allow s e) as [|it|] eqn:Eb; [eauto| |done].
    apply IH. apply Forall_app. split; [done|].
    constructor; [by eapply HP|constructor].
Qed.

Lemma slice_to_sublist {A} (l : list A) n : slice_to l n `sublist_of` l.
Proof. unfold slice_to. destruct (0 <=? n); apply sublist_take. Qed.

Lemma Forall_sublist {A} (P : A → Prop) (l1 l2 : list A) :
  l1 `sublist_of` l2 → Forall P l2 → Forall P l1.
Proof.
  induction 1 as [|x l1 l2 _ IH|x l1 l2 _ IH]; [done| |].
  - intros [Hx Hl]%Forall_cons. constructor; auto.
  - intros [_ Hl]%Forall_cons. auto.
Qed.

Lemma scrape_entries_Forall (P : item → Prop) c sc now allow s es r :
  (∀ e it, loop_body (sec_name sc) (timezone c) (window_start c now) allow s e
           = Append it → P it) →
  scrape_entries c sc now allow s es = Some r → Forall P r.
Proof.
  intros HP. unfold scrape_entries. fold (window_start c now).
  destruct (entries_loop _ _ _ _ _ _ _) as [its|] eqn:El; [|done].
  intros [= <-].
  eapply entries_loop_Forall in El; [|exact HP|constructor].
  eapply Forall_sublist; [apply slice_to_sublist|].
  by rewrite sort_desc_perm.
Qed.

Lemma merged_Forall (P : item → Prop) c now s :
  (∀ sname e it,
     loop_body sname (timezone c) (window_start c now) (allow_extract c) s e
     = Append it → P it) →
  Forall P (merged c now s).
Proof.
  intros HP. unfold merged. apply Forall_concat, Forall_fmap, Forall_forall.
  intros name _. simpl. unfold section_result.
  destruct (section_lookup name (sections c)) as [sc|]; [|constructor].
  destruct (feed_entries s (sec_url sc)) as [es|]; [|constructor].
  destruct (scrape_entries c sc now (allow_extract c) s es) as [r|] eqn:Er;
    [|constructor].
  simpl. eapply scrape_entries_Forall; [|exact Er]. intros e it. apply HP.
Qed.

Lemma main_items_Forall (P : item → Prop) c now s w :
  (∀ sname e it,
     loop_body sname (timezone c) (window_start c now) (allow_extract c) s e
     = Append it → P it) →
  Forall P (items (main c now s w).1).
Proof.
  intros HP. rewrite main_value. simpl.
  eapply Forall_sublist.
  - rewrite deduplicate_first_occ. apply first_occ_from_sublist.
  - rewrite sort_desc_perm. by apply merged_Forall.
Qed.

(** ** One turn of the loop *)

Lemma dt_lt_not_before (a b : datetime) :
  dt_lt a b = Some false ↔ not_before a b.
Proof.
  unfold dt_lt, not_before.
  destruct (utcoffset a) as [oa|], (utcoffset b) as [ob|]; try (split; done).
  - destruct (Z.ltb_spec (wall a - oa) (wall b - ob)); split;
      intros; try done; try lia.
  - destruct (Z.ltb_spec (wall a) (wall b)); split; intros; try done; try lia.
Qed.

(** An entry is appended exactly when its first date field is non-empty,
    parses, and is not before the start of the window. *)
Lemma loop_body_Append sname tz ws allow s e it :
  loop_body sname tz ws allow s e = Append it →
  ∃ p dt,
    first_present date_keys e = Some p ∧ p ≠ []
    ∧ parse_date p tz = Some (published_at it) ∧ published_at it ≠ []
    ∧ fromisoformat (published_at it) = Some dt ∧ dt_lt dt ws = Some false
    ∧ url it = e !! "link"%string
    ∧ title it = strip (html_unescape (default [] (e !! "title"%string)))
    ∧ section it = sname
    ∧ id it = stable_id (opt_or (url it) (title it)).
Proof.
  unfold loop_body.
  destruct (first_present date_keys e) as [p|]; [|done].
  destruct p as [|ch p]; [done|]. cbn [truthy negb].
  destruct (parse_date (ch :: p) tz) as [pa|] eqn:Ep; [|done].
  destruct pa as [|ch' pa]; [done|]. cbn [truthy negb].
  destruct (fromisoformat (ch' :: pa)) as [dt|] eqn:Ef; [|done].
  destruct (dt_lt dt ws) as [[]|] eqn:Elt; try done.
  intros [= <-]. exists (ch :: p), dt. simpl. by repeat split.
Qed.

Lemma loop_body_retained sname tz ws allow s e p pa dt :
  first_present date_keys e = Some p → p ≠ [] →
  parse_date p tz = Some pa → pa ≠ [] →
  fromisoformat pa = Some dt → dt_lt dt ws = Some false →
  ∃ it, loop_body sname tz ws allow s e = Append it ∧ published_at it = pa.
Proof.
  intros Hp Hpne Hpa Hpane Hf Hlt. unfold loop_body. rewrite Hp.
  destruct p as [|ch p]; [done|]. cbn [truthy negb]. rewrite Hpa.
  destruct pa as [|ch' pa]; [done|]. cbn [truthy negb]. rewrite Hf, Hlt.
  eexists. split; [reflexivity|done].
Qed.

Lemma loop_body_too_old sname tz ws allow s e p pa dt :
  first_present date_keys e = Some p →
  parse_date p tz = Some pa →
  fromisoformat pa = Some dt → dt_lt dt ws = Some true →
  loop_body sname tz ws allow s e = Continue.
Proof.
  intros Hp Hpa Hf Hlt. unfold loop_body. rewrite Hp.
  destruct (negb (truthy p)); [done|]. rewrite Hpa.
  destruct (negb (truthy pa)); [done|]. by rewrite Hf, Hlt.
Qed.

Lemma loop_body_no_date sname tz ws allow s e :
  (∀ p, first_present date_keys e = Some p → date_parser_parse p = None) →
  loop_body sname tz ws allow s e = Continue.
Proof.
  intros Hbad. unfold loop_body.
  destruct (first_present date_keys e) as [p|]; [|done].
  destruct (negb (truthy p)); [done|].
  unfold parse_date. by rewrite (Hbad p eq_refl).
Qed.

(** An entry on which the loop continues leaves no trace in the result. *)
Lemma entries_loop_skip sname tz ws allow s acc es1 e es2 :
  loop_body sname tz ws allow s e = Continue →
  entries_loop sname tz ws allow s acc (es1 ++ e :: es2)
  = entries_loop sname tz ws allow s acc (es1 ++ es2).
Proof.
  intros Hc. revert acc. induction es1 as [|e1 es1 IH]; intros acc; simpl.
  - by rewrite Hc.
  - destruct (loop_body sname tz ws allow s e1); auto.
Qed.

Lemma scrape_entries_skip c sc now allow s es1 e es2 :
  loop_body (sec_name sc) (timezone c) (window_start c now) allow s e = Continue →
  scrape_entries c sc now allow s (es1 ++ e :: es2)
  = scrape_entries c sc now allow s (es1 ++ es2).
Proof.
  intros Hc. unfold scrape_entries. fold (window_start c now).
  by rewrite (entries_loop_skip _ _ _ _ _ _ _ _ _ Hc).
Qed.

(** ** The session is consulted for the feed and for article pages only *)

Lemma loop_body_session sname tz ws allow s s' e :
  (∀ u, page_response s u = page_response s' u) →
  loop_body sname tz ws allow s e = loop_body sname tz ws allow s' e.
Proof.
  intros Hs. unfold loop_body, fetch_content. by rewrite Hs.
Qed.

Lemma entries_loop_session sname tz ws allow s s' acc es :
  (∀ u, page_response s u = page_response s' u) →
  entries_loop sname tz ws allow s acc es
  = entries_loop sname tz ws allow s' acc es.
Proof.
  intros Hs. revert acc. induction es as [|e es IH]; intros acc; simpl; [done|].
  rewrite (loop_body_session _ _ _ _ s s' e Hs).
  destruct (loop_body sname tz ws allow s' e); auto.
Qed.

Lemma scrape_entries_session c sc now allow s s' es :
  (∀ u, page_response s u = page_response s' u) →
  scrape_entries c sc now allow s es = scrape_entries c sc now allow s' es.
Proof.
  intros Hs. unfold scrape_entries.
  by rewrite (entries_loop_session _ _ _ _ s s' _ _ Hs).
Qed.

(** ** The properties of the pipeline *)

(** C1. The snapshot of a run is a function of the configuration, of [now]
    and of what the feeds and pages return: the draws of the random
    generator and the pauses taken play no part, so two runs on the same
    inputs write the same snapshot.  The [id] of every item written is the
    hash of its URL, or of its title when the URL is missing or empty. *)
Theorem snapshot_deterministic c now s (w1 w2 : world) :
  (main c now s w1).1 = (main c now s w2).1
  ∧ Forall (λ it, id it = stable_id (opt_or (url it) (title it)))
      (items (main c now s w1).1).
Proof.
  split.
  - by rewrite !main_value.
  - apply main_items_Forall. intros sname e it Hb.
    by apply loop_body_Append in Hb as (p & dt & ? & ? & ? & ? & ? & ? & ? & ? & ? & ?).
Qed.

(** ** From the loop to the snapshot *)

Lemma entries_loop_acc sname tz ws allow s acc es its it :
  entries_loop sname tz ws allow s acc es = Some its → it ∈ acc → it ∈ its.
Proof.
  revert acc. induction es as [|e es IH]; intros acc; simpl.
  - by intros [= <-].
  - destruct (loop_body sname tz ws allow s e) as [|it'|]; [apply IH| |done].
    intros Hl Hin. eapply IH; [exact Hl|]. apply elem_of_app. by left.
Qed.

(** What the loop appends for an entry of the feed is among the items of
    the loop, unless the loop is left by an exception. *)
Lemma entries_loop_appended sname tz ws allow s acc es its e it :
  e ∈ es → loop_body sname tz ws allow s e = Append it →
  entries_loop sname tz ws allow s acc es = Some its → it ∈ its.
Proof.
  intros He Hb. revert acc.
  induction es as [|e' es IH]; intros acc; [by apply elem_of_nil in He|].
  apply elem_of_cons in He as [<-|He]; simpl.
  - rewrite Hb. intros Hl. eapply entries_loop_acc; [exact Hl|].
    apply elem_of_app. right. by left.
  - destruct (loop_body sname tz ws allow s e'); [by apply IH|by apply IH|done].
Qed.

Lemma section_lookup_key name secs sc :
  section_lookup name secs = Some sc → name ∈ map fst secs.
Proof.
  induction secs as [|[k c'] secs IH]; simpl; [done|].
  case_bool_decide as Hk.
  - intros _. subst k. by left.
  - intros Hl. right. by apply IH.
Qed.

(** An item of a section's result is in the snapshot, or an item with its
    key is. *)
Lemma section_result_in_snapshot c now s w name r it :
  name ∈ map fst (sections c) → section_result name c now s = Some r → it ∈ r →
  ∃ it', it' ∈ items (main c now s w).1 ∧ dedup_key it' = dedup_key it.
Proof.
  intros Hname Hr Hit. rewrite main_value. cbn [items].
  rewrite deduplicate_first_occ.
  assert (Hm : it ∈ merged c now s).
  { unfold merged. apply list_elem_of_In, in_concat. exists r. split.
    - apply list_elem_of_In, list_elem_of_fmap. exists name. by rewrite Hr.
    - by apply list_elem_of_In. }
  assert (Hk : dedup_key it ∈ dedup_key <$> sort_desc (merged c now s)).
  { apply list_elem_of_fmap. exists it. split; [done|].
    by rewrite sort_desc_perm. }
  apply (first_occ_from_covers []) in Hk as [Hk|Hk].
  - by apply elem_of_nil in Hk.
  - apply list_elem_of_fmap in Hk as (it' & Heq & Hin). by exists it'.
Qed.

(** An entry on which the loop continues leaves no trace in the snapshot. *)
Lemma main_skip c now s w u es1 e es2 :
  (∀ sc allow,
     loop_body (sec_name sc) (timezone c) (window_start c now) allow s e
     = Continue) →
  feed_entries s u = Some (es1 ++ e :: es2) →
  (main c now s w).1 = (main c now (with_feed s u (es1 ++ es2)) w).1.
Proof.
  intros Hskip Hfeed. rewrite !main_value. do 3 f_equal.
  unfold merged. f_equal. apply list_fmap_ext. intros _ name _.
  unfold section_result.
  destruct (section_lookup name (sections c)) as [sc|]; [|done].
  cbn [with_feed feed_entries]. case_bool_decide as Hu.
  - rewrite Hu, Hfeed.
    rewrite (scrape_entries_skip _ _ _ _ _ _ _ _ (Hskip sc (allow_extract c))).
    f_equal. by apply scrape_entries_session.
  - destruct (feed_entries s (sec_url sc)); [|done].
    f_equal. by apply scrape_entries_session.
Qed.

(** C2. The window is bounded below only, by [window_start]: the value of
    [now - timedelta(hours=window_hours)], the wall clock of [now] moved
    back in the zone of [now].  Every item of the snapshot has a non-empty
    [published_at] that reads as a time not before that start.  An entry
    whose time is strictly before the start is passed over: the section
    result and the snapshot are what they are without the entry.  An entry
    whose time is at the start or after it (at the start exactly, or after
    [now]) is appended by the loop and is among the items of the loop
    unless the loop is left by an exception; and when the cap of its section
    does not cut the list, the snapshot holds an item with the link and,
    case apart, the title of the entry. *)
Theorem recency_window c now s w :
  Forall (λ it, published_at it ≠ []
                ∧ ∃ dt, fromisoformat (published_at it) = Some dt
                        ∧ not_before dt (window_start c now))
    (items (main c now s w).1)
  ∧ (∀ e p pa dt es1 es2,
       first_present date_keys e = Some p →
       parse_date p (timezone c) = Some pa →
       fromisoformat pa = Some dt →
       dt_lt dt (window_start c now) = Some true →
       (∀ sc allow,
          scrape_entries c sc now allow s (es1 ++ e :: es2)
          = scrape_entries c sc now allow s (es1 ++ es2))
       ∧ (∀ u, feed_entries s u = Some (es1 ++ e :: es2) →
               (main c now s w).1
               = (main c now (with_feed s u (es1 ++ es2)) w).1))
  ∧ (∀ sc allow e p pa dt,
       first_present date_keys e = Some p → p ≠ [] →
       parse_date p (timezone c) = Some pa → pa ≠ [] →
       fromisoformat pa = Some dt →
       not_before dt (window_start c now) →
       ∃ it, loop_body (sec_name sc) (timezone c) (window_start c now) allow s e
             = Append it
             ∧ published_at it = pa
             ∧ ∀ es its,
                 e ∈ es →
                 entries_loop (sec_name sc) (timezone c) (window_start c now)
                   allow s [] es = Some its →
                 it ∈ its)
  ∧ (∀ k sc es its e p pa dt,
       section_lookup k (sections c) = Some sc →
       feed_entries s (sec_url sc) = Some es →
       e ∈ es →
       first_present date_keys e = Some p → p ≠ [] →
       parse_date p (timezone c) = Some pa → pa ≠ [] →
       fromisoformat pa = Some dt →
       not_before dt (window_start c now) →
       entries_loop (sec_name sc) (timezone c) (window_start c now)
         (allow_extract c) s [] es = Some its →
       len its <= max_items sc →
       ∃ it, it ∈ items (main c now s w).1
             ∧ url it = e !! "link"%string
             ∧ lower (title it)
               = lower (strip (html_unescape (default [] (e !! "title"%string))))).
Proof.
  split; [|split; [|split]].
  - apply main_items_Forall. intros sname e it Hb.
    apply loop_body_Append in Hb
      as (p & dt & _ & _ & _ & Hne & Hf & Hlt & _).
    split; [done|]. exists dt. split; [done|]. by apply dt_lt_not_before.
  - intros e p pa dt es1 es2 Hp Hpa Hf Hlt.
    assert (Hskip : ∀ sc allow,
              loop_body (sec_name sc) (timezone c) (window_start c now) allow s e
              = Continue)
      by (intros; by apply (loop_body_too_old _ _ _ _ _ _ p pa dt)).
    split.
    + intros sc allow. by apply scrape_entries_skip.
    + intros u Hfeed. by apply (main_skip c now s w u es1 e es2).
  - intros sc allow e p pa dt Hp Hpne Hpa Hpane Hf Hnb.
    destruct (loop_body_retained (sec_name sc) (timezone c) (window_start c now)
                allow s e p pa dt Hp Hpne Hpa Hpane Hf
                (proj2 (dt_lt_not_before _ _) Hnb)) as (it & Hb & Hpub).
    exists it. split; [done|]. split; [done|].
    intros es its He Hl. by eapply entries_loop_appended.
  - intros k sc es its e p pa dt Hk Hfeed He Hp Hpne Hpa Hpane Hf Hnb Hl Hcap.
    destruct (loop_body_retained (sec_name sc) (timezone c) (window_start c now)
                (allow_extract c) s e p pa dt Hp Hpne Hpa Hpane Hf
                (proj2 (dt_lt_not_before _ _) Hnb)) as (it & Hb & _).
    assert (Hr : section_result k c now s = Some (sort_desc its)).
    { unfold section_result. rewrite Hk, Hfeed. unfold scrape_entries.
      fold (window_start c now). rewrite Hl. f_equal. apply slice_to_all.
      unfold len in *. by rewrite sort_desc_perm. }
    assert (Hin : it ∈ sort_desc its).
    { rewrite sort_desc_perm. by eapply entries_loop_appended. }
    destruct (section_result_in_snapshot c now s w k _ it
                (section_lookup_key _ _ _ Hk) Hr Hin) as (it' & Hin' & Hkey).
    exists it'. split; [done|].
    apply loop_body_Append in Hb
      as (_ & _ & _ & _ & _ & _ & _ & _ & Hurl & Htitle & _).
    unfold dedup_key in Hkey. injection Hkey as Hu Ht.
    split; [by rewrite Hu|]. by rewrite Ht, Htitle.
Qed.

(** C9. An entry none of whose date fields is present, or whose first
    present date field does not parse, is passed over by the loop; the
    section result is what it is without the entry, so the other entries
    are processed as before; and the run writes the snapshot it writes
    when the feed does not hold the entry. *)
Theorem unparseable_date_dropped c now s e es1 es2 :
  (∀ p, first_present date_keys e = Some p → date_parser_parse p = None) →
  (∀ sc allow,
     loop_body (sec_name sc) (timezone c) (window_start c now) allow s e
     = Continue
     ∧ scrape_entries c sc now allow s (es1 ++ e :: es2)
       = scrape_entries c sc now allow s (es1 ++ es2))
  ∧ (∀ u w,
       feed_entries s u = Some (es1 ++ e :: es2) →
       (main c now s w).1 = (main c now (with_feed s u (es1 ++ es2)) w).1).
Proof.
  intros Hbad.
  assert (Hskip : ∀ sc allow,
            loop_body (sec_name sc) (timezone c) (window_start c now) allow s e
            = Continue) by (intros; by apply loop_body_no_date).
  split.
  - intros sc allow. split; [done|]. by apply scrape_entries_skip.
  - intros u w Hfeed. rewrite !main_value. do 3 f_equal.
    unfold merged. f_equal. apply list_fmap_ext. intros _ name _.
    unfold section_result.
    destruct (section_lookup name (sections c)) as [sc|]; [|done].
    cbn [with_feed feed_entries]. case_bool_decide as Hu.
    + rewrite Hu, Hfeed.
      rewrite (scrape_entries_skip _ _ _ _ _ _ _ _ (Hskip sc (allow_extract c))).
      f_equal. by apply scrape_entries_session.
    + destruct (feed_entries s (sec_url sc)); [|done].
      f_equal. by apply scrape_entries_session.
Qed.

End Pipeline.

(** The run of the examples: of the five entries of the feed the one at the
    start of the window and the newer one are written, newest first. *)
Example example_run :
  (λ it, (id it, url it, title it, published_at it, summary_auto it))
    <$> items (main example_config example_now example_session example_world).1
  = [(lit "4c7bff8c60a183b50c619f1794c3c80ef50b1d6c",
      Some (lit "https://cbc.ca/news/politics/budget-1"),
      lit "Budget 2025 & you", lit "2025-11-05T04:00:00-05:00",
      lit "The budget passed. Reactions were mixed.");
     (lit "55da49833717d704d2f6e07563ba0e377cfdcb5b",
      Some (lit "https://cbc.ca/news/edge-1"),
      lit "Edge of the window", lit "2025-11-04T10:00:00-05:00", [])].
Proof. vm_compute. reflexivity. Qed.

(** The pauses the script takes in that run: 0.8 + 0.5 * 1.2 seconds in
    front of the fetch and max(0.5, 1.0 * (0.5 + 0.5)) seconds behind the
    section. *)
Example example_run_pauses :
  slept (main example_config example_now example_session example_world).2
  = [(280 # 200)%Q; (20 # 20)%Q].
Proof. vm_compute. reflexivity. Qed.

(** Two sections returning one article under two dates: the snapshot holds
    it once, under the later date. *)
Example two_sections_run :
  (λ it, (title it, published_at it, section it))
    <$> items (main two_sections_config example_now two_sections_session
                 example_world).1
  = [(lit "Budget 2025 & you", lit "2025-11-05T04:00:00-05:00",
      lit "Top Stories")].
Proof. vm_compute. reflexivity. Qed.

(** [now - timedelta(hours=24)] moves the wall clock: across the end of
    daylight saving time the start of the window lies 25 hours before
    [now]. *)
Example window_start_wall_clock :
  instant now_after_dst_end - instant (window_start example_config now_after_dst_end)
  = 25 * 3600 * 1000000.
Proof. vm_compute. reflexivity. Qed.

(** Three runs against the window as the specification words it.  An entry
    dated five years after [now] is outside the window and is written.  The
    morning after the clocks went back, an entry 24 hours and 30 minutes old
    is outside a window of 24 hours and is written.  The morning after the
    clocks went forward, an entry exactly 24 hours old is inside the window,
    at its start, and is not written. *)
Lemma recency_window_counterexample :
  (∃ dt, entry_time example_config entry_future = Some dt
         ∧ ¬ in_window example_config example_now dt
         ∧ published_at
             <$> items (main example_config example_now
                          (single_entry_session entry_future) example_world).1
           = [lit "2030-11-05T04:00:00-05:00"])
  ∧ (∃ dt, entry_time example_config entry_before_dst_end = Some dt
           ∧ instant dt
             = instant now_after_dst_end
               - window_hours example_config * 3600000000 - 30 * 60000000
           ∧ ¬ in_window example_config now_after_dst_end dt
           ∧ published_at
               <$> items (main example_config now_after_dst_end
                            (single_entry_session entry_before_dst_end)
                            example_world).1
             = [lit "2025-11-01T10:30:00-04:00"])
  ∧ (∃ dt, entry_time example_config entry_before_dst_start = Some dt
           ∧ instant dt
             = instant now_after_dst_start
               - window_hours example_config * 3600000000
           ∧ in_window example_config now_after_dst_start dt
           ∧ items (main example_config now_after_dst_start
                      (single_entry_session entry_before_dst_start)
                      example_world).1
             = []).
Proof.
  split; [|split].
  - eexists. split; [vm_compute; reflexivity|]. split.
    + unfold in_window. vm_compute. intros [_ Hle]. by apply Hle.
    + vm_compute. reflexivity.
  - eexists. split; [vm_compute; reflexivity|]. split; [vm_compute; reflexivity|].
    split.
    + unfold in_window. vm_compute. intros [Hle _]. by apply Hle.
    + vm_compute. reflexivity.
  - eexists. split; [vm_compute; reflexivity|]. split; [vm_compute; reflexivity|].
    split.
    + unfold in_window. vm_compute. split; discriminate.
    + vm_compute. reflexivity.
Qed.

Lemma recency_window_witness :
  ∃ it,
    it ∈ items (main example_config example_now example_session example_world).1
    ∧ url it = entry_edge !! "link"%string
    ∧ lower (title it)
      = lower (strip (html_unescape (default [] (entry_edge !! "title"%string)))).
Proof.
  eapply (proj2 (proj2 (proj2 (recency_window example_config example_now
                                 example_session example_world)))
            "top"%string
            {| sec_url := feed_url; sec_name := lit "Top Stories"; max_items := 20 |}
            example_feed _ entry_edge (lit "Tue, 04 Nov 2025 15:00:00 GMT")
            (lit "2025-11-04T10:00:00-05:00")
            {| wall := wall_of 2025 11 4 10 0 0;
               dt_tzinfo := Some (fixed_offset (- 5 * 3600 * us_per_second)) |}).
  - reflexivity.
  - vm_compute. reflexivity.
  - unfold example_feed. set_solver.
  - vm_compute. reflexivity.
  - discriminate.
  - vm_compute. reflexivity.
  - discriminate.
  - vm_compute. reflexivity.
  - vm_compute. discriminate.
  - vm_compute. reflexivity.
  - vm_compute. discriminate.
Defined.

Lemma unparseable_date_dropped_witness :
  (∀ p, first_present date_keys entry_baddate = Some p → date_parser_parse p = None)
  ∧ (main example_config example_now example_session example_world).1
    = (main example_config example_now
         (with_feed example_session feed_url
            ([entry_old; entry_undated; entry_edge] ++ [entry_new]))
         example_world).1.
Proof.
  assert (Hbad : ∀ p, first_present date_keys entry_baddate = Some p →
                      date_parser_parse p = None).
  { intros p Hp. vm_compute in Hp. injection Hp as <-. vm_compute. reflexivity. }
  split; [exact Hbad|].
  apply (proj2 (unparseable_date_dropped example_config example_now
                  example_session entry_baddate
                  [entry_old; entry_undated; entry_edge] [entry_new] Hbad)).
  vm_compute. reflexivity.
Defined.

(* ===================================================================== *)
(** * The subjectivity hint: the regular expressions count whole words *)
(* ===================================================================== *)

Section Subjectivity.

Lemma is_word_lower_char c : is_word (lower_char c) = is_word c.
Proof. destruct c as [[] [] [] [] [] [] [] []]; reflexivity. Qed.

Lemma ci_eq_is_word p c : ci_eq p c = true → is_word c = is_word p.
Proof.
  unfold ci_eq. rewrite bool_decide_eq_true. intros Hl.
  by rewrite <- (is_word_lower_char c), <- (is_word_lower_char p), Hl.
Qed.

Lemma takewhile_dropwhile {A} (p : A → bool) (l : list A) :
  takewhile p l ++ dropwhile p l = l.
Proof. induction l as [|x l IH]; simpl; [done|]. destruct (p x); simpl; congruence. Qed.

Lemma dropwhile_head {A} (p : A → bool) (l : list A) :
  from_option p false (head (dropwhile p l)) = false.
Proof.
  induction l as [|x l IH]; simpl; [done|]. destruct (p x) eqn:E; [done|].
  simpl. done.
Qed.

(** ** Words *)

Lemma truthy_rev (cur : str) : truthy (rev cur) = truthy cur.
Proof. destruct cur as [|a cur]; [done|]. simpl. by destruct (rev cur). Qed.

Lemma words_from_run cur s :
  words_from cur s
  = (if truthy (rev cur ++ takewhile is_word s)
     then [rev cur ++ takewhile is_word s] else [])
    ++ words_from [] (dropwhile is_word s).
Proof.
  revert cur. induction s as [|c s IH]; intros cur; simpl.
  - by rewrite !app_nil_r, truthy_rev.
  - destruct (is_word c) eqn:Ec.
    + rewrite IH. simpl. by rewrite <- app_assoc.
    + rewrite app_nil_r, truthy_rev. simpl. by rewrite Ec.
Qed.

Lemma words_word c s :
  is_word c = true →
  words (c :: s) = (c :: takewhile is_word s) :: words (dropwhile is_word s).
Proof.
  intros Hc. unfold words. rewrite words_from_run. simpl. by rewrite Hc.
Qed.

Lemma words_nonword c s : is_word c = false → words (c :: s) = words s.
Proof. intros Hc. unfold words. simpl. by rewrite Hc. Qed.

Lemma words_dropwhile s : words (dropwhile is_word (dropwhile is_word s))
                          = words (dropwhile is_word s).
Proof.
  pose proof (dropwhile_head is_word s) as Hh.
  destruct (dropwhile is_word s) as [|d r]; [done|]. simpl in *. by rewrite Hh.
Qed.

(** ** One attempt of the pattern *)

Lemma match_lit_ci_boundary w prev s :
  forallb is_word w = true → is_word_opt prev = true →
  match match_lit_ci w prev s with
  | Some (l, r') => boundary l (head r')
  | None => false
  end = bool_decide (lower (takewhile is_word s) = lower w).
Proof.
  revert prev s. induction w as [|p w IH]; intros prev s Hw Hprev.
  - simpl. unfold boundary. rewrite Hprev.
    destruct s as [|c s]; simpl; [done|].
    destruct (is_word c); simpl; by rewrite ?bool_decide_eq_false_2.
  - apply andb_true_iff in Hw as [Hp Hw].
    destruct s as [|c s]; [done|]. cbn [match_lit_ci takewhile].
    destruct (ci_eq p c) eqn:Eci.
    + pose proof (ci_eq_is_word _ _ Eci) as Hc. rewrite Hp in Hc.
      rewrite Hc, (IH (Some c) s Hw Hc). simpl.
      unfold ci_eq in Eci. apply bool_decide_eq_true in Eci.
      apply bool_decide_ext. rewrite Eci. split; [by intros ->|].
      by intros [= ->].
    + symmetry. apply bool_decide_eq_false_2.
      destruct (is_word c); [|done]. simpl. intros [= Hl _].
      unfold ci_eq in Eci. by apply bool_decide_eq_false in Eci.
Qed.

Lemma match_lit_ci_word w prev s :
  word_literal w →
  match match_lit_ci w prev s with
  | Some (l, r') => boundary l (head r')
  | None => false
  end = bool_decide (lower (takewhile is_word s) = lower w).
Proof.
  intros [Hne Hw]. destruct w as [|p w]; [done|].
  apply andb_true_iff in Hw as [Hp Hw].
  destruct s as [|c s]; [done|]. cbn [match_lit_ci takewhile].
  destruct (ci_eq p c) eqn:Eci.
  - pose proof (ci_eq_is_word _ _ Eci) as Hc. rewrite Hp in Hc.
    rewrite Hc, (match_lit_ci_boundary w (Some c) s Hw Hc). simpl.
    unfold ci_eq in Eci. apply bool_decide_eq_true in Eci.
    apply bool_decide_ext. rewrite Eci. split; [by intros ->|].
    by intros [= ->].
  - symmetry. apply bool_decide_eq_false_2.
    destruct (is_word c); [|done]. simpl. intros [= Hl _].
    unfold ci_eq in Eci. by apply bool_decide_eq_false in Eci.
Qed.

(** The alternation, tried where a word may begin, matches exactly when the
    run of word characters there is one of the alternatives up to case,
    and then it matches the whole run. *)
Lemma match_alts_run alts prev s :
  Forall word_literal alts →
  match_alts alts prev s
  = if is_marker alts (takewhile is_word s)
    then Some (length (takewhile is_word s)) else None.
Proof.
  induction 1 as [|w alts Hw _ IH]; [done|]. simpl.
  pose proof (match_lit_ci_word w prev s Hw) as Hm.
  destruct (match_lit_ci w prev s) as [[l r']|].
  - rewrite Hm. case_bool_decide as Hl; simpl; [|done].
    f_equal. apply (f_equal length) in Hl. unfold lower in Hl.
    by rewrite !length_map in Hl.
  - rewrite <- Hm. simpl. done.
Qed.

Lemma is_marker_nil alts : Forall word_literal alts → is_marker alts [] = false.
Proof.
  induction 1 as [|w alts [Hne _] _ IH]; [done|]. simpl. rewrite IH.
  rewrite bool_decide_eq_false_2; [done|]. by destruct w.
Qed.

Lemma match_here_nonword alts prev s :
  Forall word_literal alts → is_word_opt (head s) = false →
  match_here alts prev s = None.
Proof.
  intros Halts Hs. unfold match_here. destruct (boundary prev (head s)); [|done].
  rewrite match_alts_run by done.
  assert (takewhile is_word s = []) as ->.
  { destruct s as [|c s]; [done|]. simpl in *. by rewrite Hs. }
  by rewrite is_marker_nil.
Qed.

Lemma match_here_inside alts p c s :
  is_word p = true → is_word c = true →
  match_here alts (Some p) (c :: s) = None.
Proof. intros Hp Hc. unfold match_here, boundary. simpl. by rewrite Hp, Hc. Qed.

Lemma match_here_start alts prev c s :
  Forall word_literal alts → is_word_opt prev = false → is_word c = true →
  match_here alts prev (c :: s)
  = if is_marker alts (c :: takewhile is_word s)
    then Some (S (length (takewhile is_word s))) else None.
Proof.
  intros Halts Hprev Hc. unfold match_here, boundary.
  rewrite Hprev. change (is_word_opt (head (c :: s))) with (is_word c).
  rewrite Hc. cbn [xorb].
  rewrite match_alts_run by done. cbn [takewhile]. by rewrite Hc.
Qed.

(** ** The scan *)

Lemma findall_from_skip alts prev a b :
  findall_from alts prev (length a) (a ++ b)
  = findall_from alts (last_or prev a) O b.
Proof.
  revert prev. induction a as [|x a IH]; intros prev.
  - simpl. by destruct b.
  - simpl. rewrite IH. f_equal. unfold last_or.
    destruct a as [|y a]; [done|]. change (last (x :: y :: a)) with (last (y :: a)).
    by destruct (last (y :: a)) eqn:E; [|apply last_None in E].
Qed.

Lemma last_or_word p a :
  is_word p = true → forallb is_word a = true →
  is_word_opt (last_or (Some p) a) = true.
Proof.
  intros Hp Ha. unfold last_or.
  destruct (last a) as [c|] eqn:El; [|done].
  rewrite forallb_forall in Ha. simpl. apply Ha.
  apply list_elem_of_In. apply last_Some in El as [l' ->].
  apply elem_of_app. right. by left.
Qed.

Lemma takewhile_all {A} (p : A → bool) (l : list A) :
  forallb p (takewhile p l) = true.
Proof. induction l as [|x l IH]; simpl; [done|]. destruct (p x) eqn:E; simpl; [by rewrite E|done]. Qed.

Lemma dropwhile_length_le {A} (p : A → bool) (l : list A) :
  (length (dropwhile p l) <= length l)%nat.
Proof. induction l as [|x l IH]; simpl; [lia|]. destruct (p x); simpl; lia. Qed.

Section Scan.
Variable alts : list str.
Hypothesis Halts : Forall word_literal alts.

(** From a position inside a word that did not match. *)
Lemma scan_inside n :
  (∀ s, (length s <= n)%nat → scan_ok alts s) →
  ∀ s p, (length s <= n)%nat → is_word p = true →
         findall_from alts (Some p) O s
         = count alts (words (dropwhile is_word s)).
Proof.
  intros Hok s. induction s as [|c s IH]; intros p Hlen Hp; [done|].
  destruct (is_word c) eqn:Ec.
  - cbn [findall_from]. rewrite match_here_inside by done.
    simpl dropwhile. rewrite Ec. apply IH; [simpl in Hlen; lia|done].
  - simpl dropwhile. rewrite Ec. apply Hok; [done|]. right. simpl. done.
Qed.

Lemma scan_all n : ∀ s, (length s <= n)%nat → scan_ok alts s.
Proof.
  induction n as [|n IHn]; intros s Hlen prev Hcond.
  - destruct s; [done|simpl in Hlen; lia].
  - destruct s as [|c s]; [done|]. simpl in Hlen.
    destruct (is_word c) eqn:Ec.
    + destruct Hcond as [Hprev|Hhead]; [|simpl in Hhead; congruence].
      cbn [findall_from]. rewrite match_here_start by done.
      rewrite words_word by done. unfold count. simpl List.filter.
      destruct (is_marker alts (c :: takewhile is_word s)).
      * simpl length. f_equal.
        rewrite <- (takewhile_dropwhile is_word s) at 2.
        rewrite findall_from_skip.
        apply IHn.
        -- pose proof (dropwhile_length_le is_word s). lia.
        -- right. apply dropwhile_head.
      * apply (scan_inside n IHn); [lia|done].
    + cbn [findall_from]. rewrite match_here_nonword by done.
      rewrite words_nonword by done.
      apply IHn; [lia|]. left. simpl. done.
Qed.

Lemma findall_count_words text :
  findall_count alts text = count alts (words text).
Proof.
  unfold findall_count. apply (scan_all (length text)); [done|]. by left.
Qed.

End Scan.

Lemma marker_lists_words :
  Forall word_literal first_person ∧ Forall word_literal modal_verbs
  ∧ Forall word_literal evaluatives.
Proof.
  repeat split; repeat (constructor; [split; [discriminate|reflexivity]|]);
    constructor.
Qed.

Lemma subjectivity_score_total text : subjectivity_score text = marker_total text.
Proof.
  destruct marker_lists_words as (Hf & Hm & He).
  unfold subjectivity_score, marker_total, count_markers, len.
  rewrite !findall_count_words by done. unfold count. lia.
Qed.

Lemma marker_total_nonneg text : 0 <= marker_total text.
Proof. unfold marker_total, count_markers, len. lia. Qed.

(** C8. The subjectivity hint of an article is computed from its title, a
    space and its summary; the score is the number of whole words of the
    text that are, whatever the case, first-person pronouns, modal verbs or
    evaluative adjectives; the hint is "low" for 0, "medium" for 1 or 2 and
    "high" from 3 on. *)
Theorem subjectivity_buckets (text : str) :
  subjectivity_score text = marker_total text
  ∧ (marker_total text = 0 → subjectivity_hint text = lit "low")
  ∧ (1 <= marker_total text <= 2 → subjectivity_hint text = lit "medium")
  ∧ (3 <= marker_total text → subjectivity_hint text = lit "high")
  ∧ ∀ (S : SentimentLib) (url title summary : str),
      bias_subjectivity_hint (compute_bias url title summary)
      = subjectivity_hint (title ++ lit " " ++ summary).
Proof.
  pose proof (subjectivity_score_total text) as Hs.
  unfold subjectivity_hint. rewrite Hs.
  split; [done|]. split; [|split; [|split]].
  - by intros ->.
  - intros [H1 H2]. destruct (Z.eqb_spec (marker_total text) 0); [lia|].
    destruct (Z.leb_spec (marker_total text) 2); [done|lia].
  - intros H3. destruct (Z.eqb_spec (marker_total text) 0); [lia|].
    destruct (Z.leb_spec (marker_total text) 2); [lia|done].
  - done.
Qed.

End Subjectivity.

(** The words of a headline, and its hint. *)
Example subjectivity_example :
  words (lit "We should, I think: it's GOOD-bad_ news")
  = [lit "We"; lit "should"; lit "I"; lit "think"; lit "it"; lit "s";
     lit "GOOD"; lit "bad_"; lit "news"]
  ∧ marker_total (lit "We should, I think: it's GOOD-bad_ news") = 4
  ∧ subjectivity_score (lit "We should, I think: it's GOOD-bad_ news") = 4
  ∧ subjectivity_hint (lit "We should, I think: it's GOOD-bad_ news") = lit "high"
  ∧ subjectivity_hint (lit "Budget 2025 passed") = lit "low"
  ∧ subjectivity_hint (lit "Ottawa must act") = lit "medium".
Proof. repeat split; vm_compute; reflexivity. Qed.

(* ===================================================================== *)
(** * Tag stripping *)
(* ===================================================================== *)

Section Tags.

Lemma until_gt_None r : until_gt r = None ↔ ">"%char ∉ r.
Proof.
  induction r as [|c r IH]; simpl.
  - split; [intros _; apply not_elem_of_nil|done].
  - case_bool_decide as Hc.
    + subst c. split; [done|]. intros Hn. exfalso. apply Hn. by left.
    + rewrite not_elem_of_cons. destruct (until_gt r); simpl.
      * split; [done|]. intros [_ Hn]. by apply IH in Hn.
      * split; [|done]. intros _. split; [congruence|by apply IH].
Qed.

Lemma until_gt_Some r n :
  until_gt r = Some n →
  ∃ body post, r = body ++ ">"%char :: post ∧ length body = n ∧ ">"%char ∉ body.
Proof.
  revert n. induction r as [|c r IH]; intros n; simpl; [done|].
  case_bool_decide as Hc.
  - subst c. intros [= <-]. exists [], r.
    split; [done|]. split; [done|apply not_elem_of_nil].
  - destruct (until_gt r) as [m|]; simpl; [|done]. intros [= <-].
    destruct (IH m eq_refl) as (body & post & -> & Hl & Hn).
    exists (c :: body), post. split; [done|]. split; [simpl; lia|].
    rewrite not_elem_of_cons. split; [congruence|done].
Qed.

Lemma until_gt_app body post :
  ">"%char ∉ body → until_gt (body ++ ">"%char :: post) = Some (length body).
Proof.
  induction body as [|b body IH]; simpl.
  - done.
  - intros [Hb Hn]%not_elem_of_cons.
    rewrite bool_decide_eq_false_2 by congruence. by rewrite IH.
Qed.

Lemma sub_tags_from_drop n s : sub_tags_from n s = sub_tags (drop n s).
Proof.
  revert n. induction s as [|c s IH]; intros [|n]; try done.
  simpl. apply IH.
Qed.

Lemma sub_tags_from_elem n s x :
  x ∈ sub_tags_from n s → x ∈ s ∨ x = " "%char.
Proof.
  revert n. induction s as [|c s IH]; intros n; simpl; [by intros ?%elem_of_nil|].
  destruct n as [|n].
  - assert (x ∈ c :: sub_tags_from 0 s → x ∈ c :: s ∨ x = " "%char) as Hkeep.
    { rewrite !elem_of_cons. intros [->|Hx]; [by left; left|].
      destruct (IH _ Hx); auto. }
    case_bool_decide; [|done].
    destruct (until_gt s) as [[|k]|]; [done| |done].
    rewrite !elem_of_cons. intros [->|Hx]; [by right|].
    destruct (IH _ Hx); auto.
  - intros Hx. destruct (IH _ Hx); [left; by right|by right].
Qed.

Lemma sub_tags_no_gt s : ">"%char ∉ s → ">"%char ∉ sub_tags s.
Proof. intros Hn Hx. by destruct (sub_tags_from_elem _ _ _ Hx). Qed.

Lemma sub_tags_cons_other c s :
  c ≠ "<"%char → sub_tags (c :: s) = c :: sub_tags s.
Proof. intros Hc. unfold sub_tags. simpl. by rewrite bool_decide_eq_false_2. Qed.

Lemma has_tag_sub_tags_len n : ∀ s, (length s <= n)%nat → has_tag (sub_tags s) = false.
Proof.
  induction n as [|n IH]; intros s Hlen.
  - destruct s; [done|simpl in Hlen; lia].
  - destruct s as [|c s]; [done|]. simpl in Hlen.
    destruct (decide (c = "<"%char)) as [->|Hc].
    + unfold sub_tags. cbn [sub_tags_from]. rewrite bool_decide_eq_true_2 by done.
      destruct (until_gt s) as [[|k]|] eqn:Eu.
      * apply until_gt_Some in Eu as (body & post & -> & Hl & _).
        destruct body; [|done]. simpl.
        apply (IH post). simpl in Hlen. lia.
      * rewrite sub_tags_from_drop.
        cbn [has_tag tag_at]. rewrite bool_decide_eq_false_2 by done. simpl.
        apply IH. rewrite length_drop. lia.
      * fold (sub_tags s).
        pose proof (IH s ltac:(lia)) as Hs.
        apply until_gt_None, sub_tags_no_gt, until_gt_None in Eu.
        cbn [has_tag tag_at]. rewrite Eu. simpl. exact Hs.
    + rewrite sub_tags_cons_other by done.
      cbn [has_tag tag_at]. rewrite bool_decide_eq_false_2 by done. simpl.
      apply IH. lia.
Qed.

Lemma has_tag_app pre s : has_tag s = true → has_tag (pre ++ s) = true.
Proof.
  intros Hs. induction pre as [|c pre IH]; [done|].
  cbn [app has_tag]. rewrite IH. apply orb_true_r.
Qed.

Lemma has_tag_fixed s : has_tag s = false → sub_tags s = s.
Proof.
  induction s as [|c s IH]; [done|]. cbn [has_tag].
  intros [Ht Hs]%orb_false_iff. specialize (IH Hs).
  unfold sub_tags in *. cbn [sub_tags_from]. unfold tag_at in Ht.
  case_bool_decide; simpl in Ht; [|by rewrite IH].
  destruct (until_gt s) as [[|k]|]; [by rewrite IH|done|by rewrite IH].
Qed.

Lemma sub_tags_from_length n s : (length (sub_tags_from n s) <= length s)%nat.
Proof.
  revert n. induction s as [|c s IH]; intros n; simpl; [lia|].
  destruct n as [|n].
  - case_bool_decide.
    + pose proof (IH 0%nat).
      destruct (until_gt s) as [[|k]|]; simpl; [lia| |lia].
      pose proof (IH (S (S k))). lia.
    + simpl. pose proof (IH 0%nat). lia.
  - pose proof (IH n). lia.
Qed.

(** X1. What [re.sub] leaves holds no tag: nowhere in the result does a
    [<] open a run of one character or more, none of them [>], closed by
    [>]. *)
Theorem sub_tags_no_tag (text pre body post : str) :
  body ≠ [] → ">"%char ∉ body →
  sub_tags text ≠ pre ++ "<"%char :: body ++ ">"%char :: post.
Proof.
  intros Hne Hn Heq.
  pose proof (has_tag_sub_tags_len (length text) text ltac:(lia)) as Hno.
  rewrite Heq in Hno.
  rewrite has_tag_app in Hno; [done|].
  cbn [has_tag tag_at]. rewrite bool_decide_eq_true_2 by done.
  rewrite until_gt_app by done.
  by destruct body.
Qed.

(** X2. Stripping the tags a second time changes nothing, and the result is
    never longer than the text. *)
Theorem sub_tags_idempotent (text : str) :
  sub_tags (sub_tags text) = sub_tags text
  ∧ (length (sub_tags text) <= length text)%nat.
Proof.
  split; [|apply sub_tags_from_length].
  apply has_tag_fixed. by apply (has_tag_sub_tags_len (length text)).
Qed.

End Tags.

Lemma sub_tags_no_tag_witness :
  lit "b" ≠ [] ∧ (">"%char ∉ lit "b")
  ∧ sub_tags (lit "<<b>a <b") ≠ lit " a <" ++ "<"%char :: lit "b" ++ ">"%char :: [].
Proof.
  split; [discriminate|]. split; [|apply sub_tags_no_tag].
  all: try discriminate.
  all: intros Hin; apply list_elem_of_singleton in Hin; discriminate.
Defined.

(* ===================================================================== *)
(** * More on the subjectivity score *)
(* ===================================================================== *)

Section SubjectivityMore.

Lemma words_from_sep cur a c b :
  is_word c = false →
  words_from cur (a ++ c :: b) = words_from cur a ++ words b.
Proof.
  intros Hc. revert cur. induction a as [|x a IH]; intros cur; simpl.
  - by rewrite Hc.
  - destruct (is_word x); [apply IH|].
    by rewrite IH, app_assoc.
Qed.

Lemma count_app alts ws1 ws2 :
  count alts (ws1 ++ ws2) = (count alts ws1 + count alts ws2)%nat.
Proof. unfold count. by rewrite List.filter_app, length_app. Qed.

Lemma subjectivity_score_count text :
  subjectivity_score text
  = Z.of_nat (count first_person (words text))
    + Z.of_nat (count modal_verbs (words text))
    + Z.of_nat (count evaluatives (words text)).
Proof. by rewrite subjectivity_score_total. Qed.

(** X3. The score of an article is the score of its title plus the score of
    its summary: the space put between them keeps the last word of the one
    and the first word of the other apart. *)
Theorem subjectivity_score_additive (title summary : str) :
  subjectivity_score (title ++ lit " " ++ summary)
  = subjectivity_score title + subjectivity_score summary.
Proof.
  rewrite !subjectivity_score_count.
  change (title ++ lit " " ++ summary) with (title ++ " "%char :: summary).
  unfold words at 1 2 3. rewrite words_from_sep by done.
  fold (words title). rewrite !count_app. lia.
Qed.

Lemma lower_char_idemp c : lower_char (lower_char c) = lower_char c.
Proof. destruct c as [[] [] [] [] [] [] [] []]; reflexivity. Qed.

Lemma lower_idemp s : lower (lower s) = lower s.
Proof.
  unfold lower. rewrite map_map. apply map_ext. intros c. apply lower_char_idemp.
Qed.

Lemma words_from_lower cur s :
  words_from (lower cur) (lower s) = map lower (words_from cur s).
Proof.
  revert cur. induction s as [|c s IH]; intros cur; simpl.
  - unfold lower at 2. rewrite <- map_rev. by destruct cur.
  - rewrite is_word_lower_char. destruct (is_word c).
    + apply (IH (c :: cur)).
    + rewrite map_app. change (words_from [] (lower s))
        with (words_from (lower []) (lower s)). rewrite (IH []). f_equal.
      unfold lower at 2. rewrite <- map_rev. by destruct cur.
Qed.

Lemma is_marker_lower alts w : is_marker alts (lower w) = is_marker alts w.
Proof. unfold is_marker. by rewrite lower_idemp. Qed.

Lemma count_lower alts ws : count alts (map lower ws) = count alts ws.
Proof.
  unfold count. induction ws as [|w ws IH]; [done|]. simpl.
  rewrite is_marker_lower. destruct (is_marker alts w); simpl; by rewrite IH.
Qed.

(** X4. Case plays no part in the subjectivity hint: a text and its
    lower-case form get the same score and the same hint. *)
Theorem subjectivity_hint_lower (text : str) :
  subjectivity_score (lower text) = subjectivity_score text
  ∧ subjectivity_hint (lower text) = subjectivity_hint text.
Proof.
  assert (subjectivity_score (lower text) = subjectivity_score text) as Hs.
  { assert (Hw : words (lower text) = map lower (words text))
      by apply (words_from_lower [] text).
    by rewrite !subjectivity_score_count, Hw, !count_lower. }
  split; [done|]. unfold subjectivity_hint. by rewrite Hs.
Qed.

Lemma is_marker_elem alts w :
  is_marker alts w = true → lower w ∈ map lower alts.
Proof.
  unfold is_marker. rewrite existsb_exists. intros (m & Hm & Heq).
  apply bool_decide_eq_true in Heq. rewrite Heq.
  apply list_elem_of_In, in_map. exact Hm.
Qed.

(** No word is a marker of two classes. *)
Lemma marker_classes_disjoint w :
  (Nat.b2n (is_marker first_person w) + Nat.b2n (is_marker modal_verbs w)
   + Nat.b2n (is_marker evaluatives w) <= 1)%nat.
Proof.
  destruct (is_marker first_person w) eqn:Ef.
  - apply is_marker_elem in Ef. unfold is_marker.
    set (L := map lower first_person) in Ef. vm_compute in L. subst L.
    repeat (apply elem_of_cons in Ef as [->|Ef]; [vm_compute; lia|]).
    by apply elem_of_nil in Ef.
  - destruct (is_marker modal_verbs w) eqn:Em;
      [|destruct (is_marker evaluatives w); simpl; lia].
    apply is_marker_elem in Em. unfold is_marker.
    set (L := map lower modal_verbs) in Em. vm_compute in L. subst L.
    repeat (apply elem_of_cons in Em as [->|Em]; [vm_compute; lia|]).
    by apply elem_of_nil in Em.
Qed.

Lemma count_classes_le ws :
  (count first_person ws + count modal_verbs ws + count evaluatives ws
   <= length ws)%nat.
Proof.
  unfold count. induction ws as [|w ws IH]; [done|]. cbn [List.filter].
  pose proof (marker_classes_disjoint w).
  destruct (is_marker first_person w), (is_marker modal_verbs w),
    (is_marker evaluatives w); cbn [length Nat.b2n] in *; lia.
Qed.

(** X5. The score depends on the words of the text only, whatever stands
    between them, counts each word at most once, and so lies between 0 and
    the number of words. *)
Theorem subjectivity_score_words (text : str) :
  0 <= subjectivity_score text <= len (words text)
  ∧ ∀ text', words text' = words text →
             subjectivity_hint text' = subjectivity_hint text.
Proof.
  split.
  - rewrite subjectivity_score_count.
    pose proof (count_classes_le (words text)). unfold len. lia.
  - intros text' Hw. unfold subjectivity_hint.
    by rewrite !subjectivity_score_count, Hw.
Qed.

End SubjectivityMore.

(* ===================================================================== *)
(** * More on the sort, the cap and the snapshot *)
(* ===================================================================== *)

Section SortMore.
Context `{TextLib} `{HashLib} `{DateLib} `{SentimentLib} `{ReadabilityLib}.

Implicit Types (c : config) (sc : section_cfg) (now ws : datetime)
  (s : session) (w : world) (e : entry) (it x y : item) (l r : list item).

Lemma insert_desc_filter (k : str) x l :
  filter (λ it, published_at it = k) (insert_desc x l)
  = filter (λ it, published_at it = k) (x :: l).
Proof.
  induction l as [|y l IH]; [done|]. cbn [insert_desc].
  destruct (str_lt (published_at x) (published_at y)) eqn:Exy; [|done].
  rewrite filter_cons, IH, !filter_cons.
  destruct (decide (published_at y = k)) as [Hy|Hy];
    destruct (decide (published_at x = k)) as [Hx|Hx]; try done.
  rewrite Hx, Hy, str_lt_irrefl in Exy. done.
Qed.

(** X6. The sort is stable: it puts the items newest first, keeps all of
    them, and leaves items of one [published_at] in the order they had. *)
Theorem sort_desc_stable l (k : str) :
  filter (λ it, published_at it = k) (sort_desc l)
  = filter (λ it, published_at it = k) l
  ∧ sorted_desc (sort_desc l) = true
  ∧ sort_desc l ≡ₚ l.
Proof.
  split; [|split; [apply sort_desc_sorted|apply sort_desc_perm]].
  induction l as [|x l IH]; [done|]. simpl.
  by rewrite insert_desc_filter, !filter_cons, IH.
Qed.

Lemma sorted_desc_intro x l :
  Forall (λ y, str_lt (published_at x) (published_at y) = false) l →
  sorted_desc l = true → sorted_desc (x :: l) = true.
Proof.
  intros Hall Hs. destruct l as [|y l]; [done|].
  apply Forall_cons in Hall as [Hxy _].
  change (negb (str_lt (published_at x) (published_at y)) && sorted_desc (y :: l)
          = true).
  by rewrite Hxy, Hs.
Qed.

Lemma sorted_desc_sublist l1 l2 :
  l1 `sublist_of` l2 → sorted_desc l2 = true → sorted_desc l1 = true.
Proof.
  induction 1 as [|x l1 l2 Hsub IH|x l1 l2 Hsub IH]; [done| |].
  - intros [Hs Hall]%sorted_desc_cons.
    apply sorted_desc_intro; [|by apply IH].
    by eapply Forall_sublist.
  - intros [Hs _]%sorted_desc_cons. by apply IH.
Qed.

(** X7. With a cap of zero or more, a section returns at most [max_items]
    items, newest first, and they are the newest the loop produced: what the
    cap cuts off is the tail of the sorted list, none of it newer than an
    item returned. *)
Theorem scrape_entries_cap c sc now allow s es r :
  scrape_entries c sc now allow s es = Some r →
  0 <= max_items sc →
  len r <= max_items sc
  ∧ sorted_desc r = true
  ∧ ∃ its dropped,
      entries_loop (sec_name sc) (timezone c) (window_start c now) allow s [] es
      = Some its
      ∧ sort_desc its = r ++ dropped
      ∧ (dropped ≠ [] → len r = max_items sc)
      ∧ ∀ x y, x ∈ r → y ∈ dropped →
               str_lt (published_at x) (published_at y) = false.
Proof.
  unfold scrape_entries. fold (window_start c now). intros Hr Hcap.
  destruct (entries_loop _ _ _ _ _ _ _) as [its|]; [|done].
  injection Hr as <-.
  split; [by apply slice_to_len|].
  split.
  { eapply sorted_desc_sublist; [apply slice_to_sublist|apply sort_desc_sorted]. }
  exists its, (drop (Z.to_nat (max_items sc)) (sort_desc its)).
  unfold slice_to. destruct (Z.leb_spec 0 (max_items sc)); [|lia].
  split; [done|]. split; [by rewrite take_drop|]. split.
  - intros Hd. unfold len. rewrite length_take.
    destruct (decide (length (sort_desc its) <= Z.to_nat (max_items sc))%nat)
      as [Hle|Hgt]; [|lia].
    by rewrite drop_ge in Hd.
  - intros x y Hx Hy.
    apply list_elem_of_lookup in Hx as [i Hi], Hy as [j Hj].
    pose proof (lookup_lt_Some _ _ _ Hi) as Hlt. rewrite length_take in Hlt.
    rewrite lookup_take_lt in Hi by lia. rewrite lookup_drop in Hj.
    eapply (sorted_desc_lookup (sort_desc its) i (Z.to_nat (max_items sc) + j));
      [apply sort_desc_sorted|done|done|lia].
Qed.

(** X8. The items of a snapshot stand newest first, and no two of them have
    the same key [(url, lowercased title)]. *)
Theorem snapshot_sorted_distinct c now s w :
  sorted_desc (items (main c now s w).1) = true
  ∧ NoDup (dedup_key <$> items (main c now s w).1).
Proof.
  rewrite main_value. cbn [items]. rewrite deduplicate_first_occ. split.
  - eapply sorted_desc_sublist; [apply first_occ_from_sublist|].
    apply sort_desc_sorted.
  - apply first_occ_from_NoDup.
Qed.

End SortMore.

(* ===================================================================== *)
(** * More on the items of a snapshot *)
(* ===================================================================== *)

Section ItemsMore.
Context `{TextLib} `{HashLib} `{DateLib} `{SentimentLib} `{ReadabilityLib}.

Implicit Types (c : config) (sc : section_cfg) (now ws : datetime)
  (s : session) (w : world) (e : entry) (it : item).

Lemma entries_loop_Forall_in (P : item → Prop) sname tz ws allow s acc es r :
  (∀ e it, e ∈ es → loop_body sname tz ws allow s e = Append it → P it) →
  Forall P acc →
  entries_loop sname tz ws allow s acc es = Some r → Forall P r.
Proof.
  revert acc. induction es as [|e es IH]; intros acc HP Hacc; simpl.
  - by intros [= <-].
  - assert (∀ e' it, e' ∈ es → loop_body sname tz ws allow s e' = Append it → P it)
      as HP' by (intros e' it He'; apply HP; by right).
    destruct (loop_body sname tz ws allow s e) as [|it|] eqn:Eb; [eauto| |done].
    apply IH; [done|]. apply Forall_app. split; [done|].
    constructor; [|constructor]. eapply HP; [by left|done].
Qed.

Lemma section_lookup_elem name secs sc :
  section_lookup name secs = Some sc → (name, sc) ∈ secs.
Proof.
  induction secs as [|[k c'] secs IH]; simpl; [done|].
  case_bool_decide as Hk.
  - intros [= ->]. subst k. by left.
  - intros Hl. right. by apply IH.
Qed.

(** Every item of the snapshot was appended by the loop for an entry of the
    feed of a configured section. *)
Lemma main_items_Forall_in (P : item → Prop) c now s w :
  (∀ k sc es e it,
     (k, sc) ∈ sections c → feed_entries s (sec_url sc) = Some es → e ∈ es →
     loop_body (sec_name sc) (timezone c) (window_start c now) (allow_extract c)
       s e = Append it →
     P it) →
  Forall P (items (main c now s w).1).
Proof.
  intros HP. rewrite main_value. cbn [items].
  eapply Forall_sublist.
  { rewrite deduplicate_first_occ. apply first_occ_from_sublist. }
  rewrite sort_desc_perm. unfold merged.
  apply Forall_concat, Forall_fmap, Forall_forall. intros name _. simpl.
  unfold section_result.
  destruct (section_lookup name (sections c)) as [sc|] eqn:El; [|constructor].
  apply section_lookup_elem in El.
  destruct (feed_entries s (sec_url sc)) as [es|] eqn:Ef; [|constructor].
  destruct (scrape_entries c sc now (allow_extract c) s es) as [r|] eqn:Er;
    [|constructor].
  simpl. unfold scrape_entries in Er. fold (window_start c now) in Er.
  destruct (entries_loop _ _ _ _ _ _ _) as [its|] eqn:Eloop; [|done].
  injection Er as <-.
  eapply Forall_sublist; [apply slice_to_sublist|]. rewrite sort_desc_perm.
  eapply entries_loop_Forall_in; [|constructor|exact Eloop].
  intros e it He Hb. by eapply HP.
Qed.

Lemma loop_body_Append_fields sname tz ws allow s e it :
  loop_body sname tz ws allow s e = Append it →
  (∃ raw, summary_auto it = summarize raw 500)
  ∧ bias_heuristic it
    = to_dict (compute_bias (opt_or (url it) []) (title it) (summary_auto it)).
Proof.
  unfold loop_body.
  destruct (first_present date_keys e) as [p|]; [|done].
  destruct (negb (truthy p)); [done|].
  destruct (parse_date p tz) as [pa|]; [|done].
  destruct (negb (truthy pa)); [done|].
  destruct (fromisoformat pa) as [dt|]; [|done].
  destruct (dt_lt dt ws) as [[]|]; try done.
  intros [= <-]. cbn [summary_auto bias_heuristic url title]. split; [|done].
  destruct (_ && _ && _); [destruct (opt_truthy _)|]; eauto.
Qed.

(** X9. Every item of the snapshot has a title without white space at
    either end and a summary of at most 500 characters, without white space
    at either end. *)
Theorem snapshot_items_trimmed c now s w :
  Forall (λ it, no_outer_space (title it)
                ∧ len (summary_auto it) <= 500
                ∧ no_outer_space (summary_auto it))
    (items (main c now s w).1).
Proof.
  apply main_items_Forall. intros sname e it Hb.
  pose proof (loop_body_Append_fields _ _ _ _ _ _ _ Hb) as [[raw Hraw] _].
  apply loop_body_Append in Hb
    as (p & dt & _ & _ & _ & _ & _ & _ & _ & Htitle & _).
  rewrite Htitle, Hraw.
  split; [apply strip_no_outer_space|].
  unfold summarize. destruct (negb (truthy raw)); [done|].
  split; [|apply strip_no_outer_space].
  match goal with |- len (strip (slice_to ?x _)) <= _ =>
    pose proof (strip_length (slice_to x 500));
    pose proof (slice_to_len x 500 ltac:(lia)) end.
  unfold len in *. lia.
Qed.

(** X10. The bias of every item of the snapshot is the one its own fields
    give: the article type is that of its URL (of the empty string without
    one), the subjectivity hint is that of its title, a space and its
    summary, the sentiment is the rounded score of title and summary; the
    type is "Opinion" or "News", the hint "low", "medium" or "high". *)
Theorem snapshot_bias_consistent c now s w :
  Forall (λ it,
            article_type (bias_heuristic it)
            = detect_article_type (opt_or (url it) [])
            ∧ bias_subjectivity_hint (bias_heuristic it)
              = subjectivity_hint (title it ++ lit " " ++ summary_auto it)
            ∧ sentiment (bias_heuristic it)
              = round3 (sentiment_score (title it) (summary_auto it))
            ∧ (article_type (bias_heuristic it) = lit "Opinion"
               ∨ article_type (bias_heuristic it) = lit "News")
            ∧ (bias_subjectivity_hint (bias_heuristic it) = lit "low"
               ∨ bias_subjectivity_hint (bias_heuristic it) = lit "medium"
               ∨ bias_subjectivity_hint (bias_heuristic it) = lit "high"))
    (items (main c now s w).1).
Proof.
  apply main_items_Forall. intros sname e it Hb.
  pose proof (loop_body_Append_fields _ _ _ _ _ _ _ Hb) as [_ ->].
  cbn [to_dict compute_bias article_type bias_subjectivity_hint sentiment].
  repeat split.
  - unfold detect_article_type. destruct (contains _ _); auto.
  - unfold subjectivity_hint.
    destruct (_ =? 0); [auto|]. destruct (_ <=? 2); auto.
Qed.

(** X11. Every item of the snapshot comes from an entry of the feed of a
    configured section: it carries the display name of the section, the
    link of the entry as its URL, the unescaped and trimmed title of the
    entry, and the date parsed from the first date field of the entry. *)
Theorem snapshot_items_provenance c now s w :
  Forall (λ it,
            ∃ k sc es e p,
              (k, sc) ∈ sections c
              ∧ feed_entries s (sec_url sc) = Some es ∧ e ∈ es
              ∧ section it = sec_name sc
              ∧ url it = e !! "link"%string
              ∧ title it
                = strip (html_unescape (default [] (e !! "title"%string)))
              ∧ first_present date_keys e = Some p
              ∧ parse_date p (timezone c) = Some (published_at it))
    (items (main c now s w).1).
Proof.
  apply main_items_Forall_in. intros k sc es e it Hk Hfeed He Hb.
  apply loop_body_Append in Hb
    as (p & dt & Hp & _ & Hpa & _ & _ & _ & Hurl & Htitle & Hsec & _).
  exists k, sc, es, e, p. done.
Qed.

(** ** Article pages *)

Lemma loop_body_no_extract sname tz ws s s' e :
  loop_body sname tz ws false s e = loop_body sname tz ws false s' e.
Proof. unfold loop_body. by rewrite !andb_false_r. Qed.

Lemma loop_body_extract_fails sname tz ws allow s e :
  (∀ u, opt_truthy (fetch_content s u) = false) →
  loop_body sname tz ws allow s e = loop_body sname tz ws false s e.
Proof.
  intros Hf. unfold loop_body.
  destruct (first_present date_keys e) as [p|]; [|done].
  destruct (negb (truthy p)); [done|].
  destruct (parse_date p tz) as [pa|]; [|done].
  destruct (negb (truthy pa)); [done|].
  destruct (fromisoformat pa) as [dt|]; [|done].
  destruct (dt_lt dt ws) as [[]|]; try done.
  rewrite Hf, andb_false_r. by destruct (_ && _ && _).
Qed.

Lemma entries_loop_ext sname tz ws allow allow' s s' acc es :
  (∀ e, loop_body sname tz ws allow s e = loop_body sname tz ws allow' s' e) →
  entries_loop sname tz ws allow s acc es
  = entries_loop sname tz ws allow' s' acc es.
Proof.
  intros Hb. revert acc. induction es as [|e es IH]; intros acc; simpl; [done|].
  rewrite Hb. destruct (loop_body sname tz ws allow' s' e); auto.
Qed.

Lemma merged_ext c c' now s s' :
  sections c' = sections c → timezone c' = timezone c →
  window_hours c' = window_hours c →
  (∀ u, feed_entries s' u = feed_entries s u) →
  (∀ sname e,
     loop_body sname (timezone c) (window_start c now) (allow_extract c) s e
     = loop_body sname (timezone c) (window_start c now) (allow_extract c') s' e) →
  merged c now s = merged c' now s'.
Proof.
  intros Hsec Htz Hwin Hfeed Hb. unfold merged. rewrite Hsec. f_equal.
  apply list_fmap_ext. intros _ name _. unfold section_result.
  rewrite Hsec. destruct (section_lookup name (sections c)) as [sc|]; [|done].
  rewrite Hfeed. destruct (feed_entries s (sec_url sc)) as [es|]; [|done].
  f_equal. unfold scrape_entries. rewrite Htz, Hwin.
  fold (window_start c now).
  by rewrite (entries_loop_ext _ _ _ _ (allow_extract c') s s' [] es
                (λ e, Hb (sec_name sc) e)).
Qed.

(** X12. With the extraction switched off no article page plays a part:
    two sessions with the same feeds give the same snapshot, whatever their
    pages answer. *)
Theorem no_extract_no_pages c now s s' w w' :
  allow_extract c = false →
  (∀ u, feed_entries s' u = feed_entries s u) →
  (main c now s w).1 = (main c now s' w').1.
Proof.
  intros Hallow Hfeed. rewrite !main_value. do 3 f_equal.
  apply merged_ext; try done.
  intros sname e. rewrite Hallow. apply loop_body_no_extract.
Qed.

(** X13. A page that cannot be had does no harm: when every fetch of an
    article page raises, answers a status other than 200, or yields no
    readable part, the snapshot is the one written with the extraction
    switched off. *)
Theorem extract_failure_swallowed c now s w w' :
  (∀ u, opt_truthy (fetch_content s u) = false) →
  (main c now s w).1 = (main (without_extract c) now s w').1.
Proof.
  intros Hf. rewrite !main_value. cbn [without_extract timezone]. do 3 f_equal.
  apply merged_ext; try done.
  intros sname e. by apply loop_body_extract_fails.
Qed.

(** ** Sections that fail *)

Lemma scrape_entries_nil c sc now allow s :
  scrape_entries c sc now allow s [] = Some [].
Proof.
  unfold scrape_entries, slice_to. cbn [entries_loop sort_desc foldr].
  destruct (0 <=? _); by rewrite take_nil.
Qed.

Lemma merged_with_feed c now s u es es' :
  feed_entries s u = es →
  (∀ sc, sec_url sc = u →
         default [] (es ≫= scrape_entries c sc now (allow_extract c) s)
         = default [] (scrape_entries c sc now (allow_extract c) s es')) →
  merged c now s = merged c now (with_feed s u es').
Proof.
  intros Hfeed Hsame. unfold merged. f_equal.
  apply list_fmap_ext. intros _ name _. unfold section_result.
  destruct (section_lookup name (sections c)) as [sc|]; [|done].
  cbn [with_feed feed_entries]. case_bool_decide as Hu.
  - rewrite Hu, Hfeed.
    rewrite <- (scrape_entries_session c sc now (allow_extract c) s
                  (with_feed s u es') es') by done.
    rewrite <- (Hsame sc Hu). by destruct es.
  - destruct (feed_entries s (sec_url sc)); [|done].
    f_equal. by apply scrape_entries_session.
Qed.

(** X14. A feed that cannot be fetched counts as an empty feed: the snapshot
    is the one written when the feed answers without entries. *)
Theorem fetch_failure_empty_feed c now s u w w' :
  feed_entries s u = None →
  (main c now s w).1 = (main c now (with_feed s u []) w').1.
Proof.
  intros Hfeed. rewrite !main_value. do 3 f_equal.
  apply (merged_with_feed c now s u None []); [done|].
  intros sc _. by rewrite scrape_entries_nil.
Qed.

Lemma entries_loop_raise sname tz ws allow s acc es e :
  e ∈ es → loop_body sname tz ws allow s e = Raise →
  entries_loop sname tz ws allow s acc es = None.
Proof.
  intros He Hr. revert acc. induction es as [|e' es IH]; intros acc.
  - by apply elem_of_nil in He.
  - simpl. apply elem_of_cons in He as [<-|He]; [by rewrite Hr|].
    destruct (loop_body sname tz ws allow s e'); auto.
Qed.

Lemma loop_body_Raise sname tz ws allow s e p pa :
  first_present date_keys e = Some p → p ≠ [] →
  parse_date p tz = Some pa → pa ≠ [] →
  match fromisoformat pa with
  | None => True
  | Some dt => dt_lt dt ws = None
  end →
  loop_body sname tz ws allow s e = Raise.
Proof.
  intros Hp Hpne Hpa Hpane Hr. unfold loop_body. rewrite Hp.
  destruct p; [done|]. cbn [truthy negb]. rewrite Hpa.
  destruct pa; [done|]. cbn [truthy negb].
  destruct (fromisoformat _) as [dt|]; [|done]. by rewrite Hr.
Qed.

(** X15. One entry that raises loses its section: when the date string of an
    entry cannot be read back, or its time cannot be compared with the start
    of the window (one of the two carries a zone and the other none), the
    section returns nothing, its other entries included, and the snapshot is
    the one written when that feed answers without entries. *)
Theorem raising_entry_loses_section c now s u es e p pa w w' :
  feed_entries s u = Some es → e ∈ es →
  first_present date_keys e = Some p → p ≠ [] →
  parse_date p (timezone c) = Some pa → pa ≠ [] →
  match fromisoformat pa with
  | None => True
  | Some dt => dt_lt dt (window_start c now) = None
  end →
  (∀ sc allow, scrape_entries c sc now allow s es = None)
  ∧ (main c now s w).1 = (main c now (with_feed s u []) w').1.
Proof.
  intros Hfeed He Hp Hpne Hpa Hpane Hr.
  assert (Hnone : ∀ sc allow, scrape_entries c sc now allow s es = None).
  { intros sc allow. unfold scrape_entries. fold (window_start c now).
    rewrite (entries_loop_raise _ _ _ _ _ _ es e He); [done|].
    by eapply loop_body_Raise. }
  split; [done|].
  rewrite !main_value. do 3 f_equal.
  apply (merged_with_feed c now s u (Some es) []); [done|].
  intros sc _. cbn [mbind option_bind]. by rewrite Hnone, scrape_entries_nil.
Qed.

End ItemsMore.

(* ===================================================================== *)
(** * Pauses, and the earlier variant *)
(* ===================================================================== *)

Section RunMore.
Context `{TextLib} `{HashLib} `{DateLib} `{SentimentLib} `{ReadabilityLib}.

Implicit Types (c : config) (sc : section_cfg) (now ws : datetime)
  (s : session) (w : world) (e : entry) (it : item).

Lemma section_lookup_is_Some name secs :
  name ∈ map fst secs → is_Some (section_lookup name secs).
Proof.
  induction secs as [|[k c'] secs IH]; simpl; [by intros ?%elem_of_nil|].
  case_bool_decide; [eauto|]. rewrite elem_of_cons. intros [?|?]; [done|auto].
Qed.

Lemma scrape_section_world name c now allow s w :
  is_Some (section_lookup name (sections c)) →
  (scrape_section name c now allow s w).2
  = {| draws := draws w; drawn := S (drawn w);
       slept := slept w ++ [fetch_pause (draws w (drawn w))] |}.
Proof.
  intros [sc Hsc]. unfold scrape_section. rewrite Hsc.
  unfold bind, fetch_feed_bytes, bind, random_random, time_sleep, ret. simpl.
  by destruct (feed_entries s (sec_url sc)).
Qed.

Lemma sections_loop_world c now allow s all_items keys w :
  (∀ k, k ∈ keys → is_Some (section_lookup k (sections c))) →
  (sections_loop c now allow s all_items keys w).2
  = {| draws := draws w; drawn := (drawn w + 2 * length keys)%nat;
       slept := slept w ++ pauses c (draws w) (drawn w) (length keys) |}.
Proof.
  revert all_items w. induction keys as [|k keys IH]; intros all_items w Hk.
  - simpl. rewrite Nat.add_0_r, app_nil_r. by destruct w.
  - cbn [sections_loop]. unfold bind at 1.
    pose proof (scrape_section_world k c now allow s w
                  (Hk k ltac:(by left))) as Hw.
    destruct (scrape_section k c now allow s w) as [r w1]. simpl in Hw. subst w1.
    unfold bind, random_random, time_sleep. cbn [draws drawn slept].
    rewrite IH by (intros k' Hk'; apply Hk; by right).
    cbn [draws drawn slept length pauses]. f_equal; [lia|].
    rewrite <- !app_assoc. simpl. do 3 f_equal.
Qed.

Lemma Qmax_lower (a b : Q) : (a <= Qmax a b)%Q.
Proof.
  unfold Qmax. destruct (Qle_bool b a) eqn:E.
  - apply Qle_refl.
  - apply Qlt_le_weak, Qnot_le_lt. intros Hle.
    apply Qle_bool_iff in Hle. congruence.
Qed.

Lemma pauses_length c draw k n : length (pauses c draw k n) = (2 * n)%nat.
Proof.
  revert k. induction n as [|n IH]; intros k; [done|].
  cbn [pauses length]. rewrite IH. lia.
Qed.

Lemma pauses_lower c draw k n :
  (∀ i, (0 <= draw i)%Q) →
  Forall (λ d, (1 # 2 <= d)%Q) (pauses c draw k n).
Proof.
  intros Hpos. revert k. induction n as [|n IH]; intros k; [constructor|].
  cbn [pauses]. constructor; [|constructor; [|apply IH]].
  - unfold fetch_pause. specialize (Hpos k).
    apply Qle_trans with (8 # 10)%Q; [done|].
    rewrite <- (Qplus_0_r (8 # 10)) at 1.
    apply Qplus_le_r. apply Qmult_le_0_compat; [done|done].
  - unfold section_pause. apply Qle_trans with (5 # 10)%Q; [done|].
    apply Qmax_lower.
Qed.

(** X16. The script itself draws twice from the random generator and calls
    [time.sleep] twice for every configured section, whether the section
    yields items, fails to fetch or raises: the pause in front of the feed
    request and the pause of the [finally] clause behind the section.  With
    draws that are not negative none of these pauses is shorter than half a
    second.  Only the calls of [time.sleep] written in the script are
    counted: the waits of the retrying session inside [session.get] come on
    top of them. *)
Theorem run_pacing c now s w :
  drawn (main c now s w).2 = (drawn w + 2 * length (sections c))%nat
  ∧ slept (main c now s w).2
    = slept w ++ pauses c (draws w) (drawn w) (length (sections c))
  ∧ length (pauses c (draws w) (drawn w) (length (sections c)))
    = (2 * length (sections c))%nat
  ∧ ((∀ i, (0 <= draws w i)%Q) →
     Forall (λ d, (1 # 2 <= d)%Q)
       (pauses c (draws w) (drawn w) (length (sections c)))).
Proof.
  assert (Hw : (main c now s w).2
               = {| draws := draws w;
                    drawn := (drawn w + 2 * length (sections c))%nat;
                    slept := slept w ++ pauses c (draws w) (drawn w)
                                          (length (sections c)) |}).
  { unfold main, bind.
    pose proof (sections_loop_world c now (allow_extract c) s []
                  (map fst (sections c)) w
                  (λ k, section_lookup_is_Some k (sections c))) as Hl.
    destruct (sections_loop c now (allow_extract c) s [] (map fst (sections c)) w)
      as [all_items w1].
    simpl in Hl |- *. by rewrite length_map in Hl. }
  rewrite Hw. cbn [drawn slept]. repeat split.
  - apply pauses_length.
  - apply pauses_lower.
Qed.

(** ** The earlier variant *)

Lemma ui_dedup_loop seen deduped (l : list item) :
  ScraperUI.dedup_loop seen deduped l = dedup_loop seen deduped l.
Proof.
  revert seen deduped. induction l as [|it l IH]; intros seen deduped; [done|].
  simpl. unfold dedup_key. by rewrite !IH.
Qed.

Lemma ui_scrape_section name c now s :
  default [] (ScraperUI.scrape_section name c now (allow_extract c) s)
  = default [] (section_result name c now s).
Proof.
  unfold ScraperUI.scrape_section, section_result.
  destruct (section_lookup name (sections c)) as [sc|]; [|done].
  destruct (feed_entries s (sec_url sc)) as [es|]; [done|].
  change (default [] (@None (list entry))) with (@nil entry).
  by rewrite scrape_entries_nil.
Qed.

Lemma ui_sections_loop c now s all_items keys w :
  let r := ScraperUI.sections_loop c now (allow_extract c) s all_items keys w in
  r.1 = all_items
        ++ concat ((λ name, default [] (section_result name c now s)) <$> keys)
  ∧ drawn r.2 = drawn w.
Proof.
  revert all_items w. induction keys as [|k keys IH]; intros all_items w.
  - simpl. by rewrite app_nil_r.
  - cbn [ScraperUI.sections_loop fmap list_fmap concat].
    rewrite <- ui_scrape_section.
    destruct (ScraperUI.scrape_section k c now (allow_extract c) s) as [its|].
    + unfold bind, time_sleep.
      match goal with |- context [ScraperUI.sections_loop _ _ _ _ ?a _ ?w'] =>
        destruct (IH a w') as [Hv Hd] end.
      cbn zeta in Hv, Hd |- *. rewrite Hv, Hd. simpl. by rewrite <- app_assoc.
    + destruct (IH all_items w) as [Hv Hd]. cbn zeta in Hv, Hd |- *.
      by rewrite Hv, Hd.
Qed.

(** X17. The two variants of the scraper agree on what they write: for the
    same configuration, the same [now] and the same answers of the network,
    the earlier variant and the one with the retrying session give the same
    snapshot.  The earlier variant takes no draw from the random
    generator. *)
Theorem variants_agree c now s w w' :
  (ScraperUI.main c now s w).1 = (main c now s w').1
  ∧ drawn (ScraperUI.main c now s w).2 = drawn w.
Proof.
  rewrite main_value. unfold ScraperUI.main, bind.
  destruct (ui_sections_loop c now s [] (map fst (sections c)) w) as [Hv Hd].
  cbn zeta in Hv, Hd.
  destruct (ScraperUI.sections_loop c now (allow_extract c) s []
              (map fst (sections c)) w) as [all_items w1].
  simpl in Hv, Hd |- *. subst all_items. split; [|done].
  unfold ScraperUI.deduplicate, deduplicate, merged. by rewrite ui_dedup_loop.
Qed.

End RunMore.

(* ===================================================================== *)
(** * More on deduplication *)
(* ===================================================================== *)

Section DeduplicateMore.
Context `{SentimentLib}.

Implicit Types (l before : list item) (x y : item).

Lemma first_occ_from_ext_on before1 before2 l :
  (∀ y, y ∈ l → dedup_key y ∈ dedup_key <$> before1
                ↔ dedup_key y ∈ dedup_key <$> before2) →
  first_occ_from before1 l = first_occ_from before2 l.
Proof.
  revert before1 before2. induction l as [|x l IH]; intros b1 b2 Hb; [done|].
  simpl.
  assert (first_occ_from (b1 ++ [x]) l = first_occ_from (b2 ++ [x]) l) as ->.
  { apply IH. intros y Hy. rewrite !fmap_app, !elem_of_app.
    rewrite (Hb y) by (by right). done. }
  assert (Hx : dedup_key x ∈ dedup_key <$> b1 ↔ dedup_key x ∈ dedup_key <$> b2)
    by (apply Hb; by left).
  by rewrite (bool_decide_ext _ _ Hx).
Qed.

(** X18. [deduplicate] loses no key: a key occurs among the items kept
    exactly when it occurs in the input; a list in which no key occurs twice
    is returned as it is; and the result is never longer than the input. *)
Theorem deduplicate_keeps_keys l :
  (∀ k, k ∈ dedup_key <$> deduplicate l ↔ k ∈ dedup_key <$> l)
  ∧ (NoDup (dedup_key <$> l) → deduplicate l = l)
  ∧ len (deduplicate l) <= len l.
Proof.
  rewrite !deduplicate_first_occ. split; [|split].
  - intros k. split.
    + by intros [_ Hk]%first_occ_from_keys.
    + intros Hk. destruct (first_occ_from_covers [] l k Hk) as [Hb|]; [|done].
      by apply elem_of_nil in Hb.
  - intros Hnd. apply first_occ_from_fixed; [done|].
    intros k _ Hk. by apply elem_of_nil in Hk.
  - unfold len. pose proof (sublist_length _ _ (first_occ_from_sublist [] l)). lia.
Qed.

(** X19. Lists that share no key are deduplicated one by one: the result
    for their concatenation is the concatenation of their results. *)
Theorem deduplicate_app_disjoint l1 l2 :
  (∀ x y, x ∈ l1 → y ∈ l2 → dedup_key x ≠ dedup_key y) →
  deduplicate (l1 ++ l2) = deduplicate l1 ++ deduplicate l2.
Proof.
  intros Hdis. rewrite !deduplicate_first_occ, first_occ_from_app. f_equal.
  simpl. apply first_occ_from_ext_on. intros y Hy. split.
  - intros (x & Hk & Hx)%list_elem_of_fmap. by destruct (Hdis x y Hx Hy).
  - by intros ?%elem_of_nil.
Qed.

End DeduplicateMore.

(* ===================================================================== *)
(** * Size of the snapshot, and which fields of an entry count *)
(* ===================================================================== *)

Section EntriesMore.
Context `{TextLib} `{HashLib} `{DateLib} `{SentimentLib} `{ReadabilityLib}.

Implicit Types (c : config) (sc : section_cfg) (now ws : datetime)
  (s : session) (w : world) (e : entry) (it : item).

Lemma section_lookup_NoDup name secs sc :
  NoDup (map fst secs) → (name, sc) ∈ secs → section_lookup name secs = Some sc.
Proof.
  induction secs as [|[k c'] secs IH]; simpl; [by intros _ ?%elem_of_nil|].
  intros [Hk Hnd]%NoDup_cons. rewrite elem_of_cons. intros [Heq|Hin].
  - injection Heq as -> ->. by rewrite bool_decide_eq_true_2.
  - rewrite bool_decide_eq_false_2; [by apply IH|].
    intros ->. apply Hk. apply list_elem_of_In, in_map_iff.
    exists (name, sc). split; [done|]. by apply list_elem_of_In.
Qed.

Lemma section_result_len name c now s sc :
  section_lookup name (sections c) = Some sc → 0 <= max_items sc →
  len (default [] (section_result name c now s)) <= max_items sc.
Proof.
  intros Hl Hcap. unfold section_result. rewrite Hl.
  destruct (feed_entries s (sec_url sc)) as [es|]; [|unfold len; simpl; lia].
  unfold scrape_entries.
  destruct (entries_loop _ _ _ _ _ _ _); [|unfold len; simpl; lia].
  simpl. by apply slice_to_len.
Qed.

Lemma sections_len c now s (secs : list (string * section_cfg)) :
  Forall (λ ks, 0 <= max_items ks.2) secs →
  (∀ ks, ks ∈ secs → section_lookup ks.1 (sections c) = Some ks.2) →
  len (concat ((λ name, default [] (section_result name c now s))
                 <$> map fst secs))
  <= foldr (λ ks acc, max_items ks.2 + acc) 0 secs.
Proof.
  induction secs as [|[k sc] secs IH]; intros Hcaps Hin; [done|].
  apply Forall_cons in Hcaps as [Hcap Hcaps].
  cbn [map fmap list_fmap concat foldr fst snd] in *. rewrite len_app.
  assert (section_lookup k (sections c) = Some sc) as Hk
    by (apply (Hin (k, sc)); by left).
  pose proof (section_result_len k c now s sc Hk Hcap).
  assert (∀ ks, ks ∈ secs → section_lookup ks.1 (sections c) = Some ks.2) as Hin'
    by (intros ks Hks; apply Hin; by right).
  specialize (IH Hcaps Hin'). lia.
Qed.

(** X20. With section keys that differ and caps of zero or more, the
    snapshot holds at most as many items as the caps of the sections add up
    to. *)
Theorem snapshot_size c now s w :
  NoDup (map fst (sections c)) →
  Forall (λ ks, 0 <= max_items ks.2) (sections c) →
  len (items (main c now s w).1) <= total_cap c.
Proof.
  intros Hnd Hcaps. rewrite main_value. cbn [items].
  rewrite deduplicate_first_occ.
  pose proof (sublist_length _ _
                (first_occ_from_sublist [] (sort_desc (merged c now s)))) as Hd.
  pose proof (Permutation_length (sort_desc_perm (merged c now s))) as Hp.
  assert (len (merged c now s) <= total_cap c) as Hm; [|unfold len in *; lia].
  unfold merged, total_cap. apply sections_len; [done|].
  intros [k sc] Hks. by apply section_lookup_NoDup.
Qed.

Lemma first_present_published e p :
  e !! "published"%string = Some p → first_present date_keys e = Some p.
Proof. intros Hp. simpl. by rewrite Hp. Qed.

(** X21. The date fields are read in a fixed order and the first one present
    decides alone: for an entry with a [published] field, whatever it
    holds, the fields [updated], [pubDate] and [date] play no part in what
    the loop does with the entry. *)
Theorem published_takes_precedence sname tz ws allow s e (k : string) (v : str) :
  is_Some (e !! "published"%string) →
  k ∈ ["updated"; "pubDate"; "date"]%string →
  loop_body sname tz ws allow s (<[k := v]> e) = loop_body sname tz ws allow s e.
Proof.
  intros [p Hp] Hk.
  assert (Hne : ∀ k' : string,
            k' ∈ ["published"; "link"; "title"; "summary"; "description"]%string →
            (<[k := v]> e) !! k' = e !! k').
  { intros k' Hk'. apply lookup_insert_ne. intros ->.
    repeat (apply elem_of_cons in Hk as [->|Hk];
            [repeat (apply elem_of_cons in Hk' as [Hk'|Hk']; [discriminate|]);
             by apply elem_of_nil in Hk'|]).
    by apply elem_of_nil in Hk. }
  unfold loop_body.
  rewrite (first_present_published e p Hp).
  rewrite (first_present_published (<[k := v]> e) p)
    by (rewrite Hne; [done|by left]).
  rewrite !Hne; [done|..]; set_solver.
Qed.

(** X22. A summary that is not empty is the text summarised; the
    [description] of the entry then plays no part in what the loop does
    with the entry. *)
Theorem summary_takes_precedence sname tz ws allow s e (v : str) :
  opt_truthy (e !! "summary"%string) = true →
  loop_body sname tz ws allow s (<["description"%string := v]> e)
  = loop_body sname tz ws allow s e.
Proof.
  intros Hs.
  assert (Hne : ∀ k' : string,
            k' ∈ ["published"; "updated"; "pubDate"; "date"; "link"; "title";
                  "summary"]%string →
            (<["description"%string := v]> e) !! k' = e !! k').
  { intros k' Hk'. apply lookup_insert_ne. intros <-.
    repeat (apply elem_of_cons in Hk' as [Hk'|Hk']; [discriminate|]).
    by apply elem_of_nil in Hk'. }
  assert (Hfp : first_present date_keys (<["description"%string := v]> e)
                = first_present date_keys e).
  { unfold date_keys. cbn [first_present]. rewrite !Hne; [done|..]; set_solver. }
  unfold loop_body. rewrite Hfp.
  rewrite !(Hne "summary"%string) by set_solver. rewrite Hs. cbv iota.
  rewrite !Hne; [done|set_solver..].
Qed.

(** X23. Text is extracted from the article page only for an entry whose
    own summary comes out empty and whose link is not empty: for an entry
    with a summary that does not come out empty, or without a link, neither
    the extraction switch nor the answers of the pages play a part in what
    the loop does with it. *)
Theorem extraction_only_when_needed sname tz ws allow allow' s s' e :
  summarize (summary_raw e) 500 ≠ [] ∨ opt_truthy (e !! "link"%string) = false →
  loop_body sname tz ws allow s e = loop_body sname tz ws allow' s' e.
Proof.
  intros Hcase. unfold loop_body. fold (summary_raw e).
  destruct (first_present date_keys e) as [p|]; [|done].
  destruct (negb (truthy p)); [done|].
  destruct (parse_date p tz) as [pa|]; [|done].
  destruct (negb (truthy pa)); [done|].
  destruct (fromisoformat pa) as [dt|]; [|done].
  destruct (dt_lt dt ws) as [[]|]; try done.
  destruct Hcase as [Hsum|Hlink].
  - destruct (summarize (summary_raw e) 500) as [|ch r] eqn:Es; [done|].
    done.
  - rewrite Hlink, !andb_false_r. done.
Qed.

End EntriesMore.

(* ===================================================================== *)
(** * The additional properties on the runs of the examples *)
(* ===================================================================== *)

Lemma scrape_entries_cap_witness :
  0 <= max_items capped_section
  ∧ match scrape_entries example_config capped_section example_now false
            example_session example_feed with
    | Some r => len r <= 1 ∧ sorted_desc r = true
    | None => False
    end.
Proof.
  split; [vm_compute; discriminate|].
  destruct (scrape_entries example_config capped_section example_now false
              example_session example_feed) as [r|] eqn:Er.
  - destruct (scrape_entries_cap example_config capped_section example_now false
                example_session example_feed r Er) as (Hlen & Hs & _).
    + vm_compute; discriminate.
    + split; [exact Hlen|exact Hs].
  - vm_compute in Er. discriminate.
Defined.

Lemma no_extract_no_pages_witness :
  allow_extract example_config = false
  ∧ (main example_config example_now example_session example_world).1
    = (main example_config example_now pages_session example_world).1.
Proof.
  split; [reflexivity|].
  apply (no_extract_no_pages example_config example_now example_session
           pages_session); [reflexivity|]. intros u. reflexivity.
Defined.

Lemma extract_failure_swallowed_witness :
  (∀ u, opt_truthy (fetch_content example_session u) = false)
  ∧ (main extract_config example_now example_session example_world).1
    = (main (without_extract extract_config) example_now example_session
         example_world).1.
Proof.
  assert (Hf : ∀ u, opt_truthy (fetch_content example_session u) = false)
    by (intros u; reflexivity).
  split; [exact Hf|].
  apply (extract_failure_swallowed extract_config example_now example_session
           example_world example_world Hf).
Defined.

Lemma fetch_failure_empty_feed_witness :
  feed_entries example_session politics_url = None
  ∧ (main two_sections_config example_now example_session example_world).1
    = (main two_sections_config example_now
         (with_feed example_session politics_url []) example_world).1.
Proof.
  assert (Hf : feed_entries example_session politics_url = None)
    by (vm_compute; reflexivity).
  split; [exact Hf|].
  apply (fetch_failure_empty_feed two_sections_config example_now example_session
           politics_url example_world example_world Hf).
Defined.

Lemma raising_entry_loses_section_witness :
  entry_new ∈ example_feed
  ∧ (∀ sc allow,
       scrape_entries example_config sc naive_now allow example_session
         example_feed = None)
  ∧ (main example_config naive_now example_session example_world).1
    = (main example_config naive_now (with_feed example_session feed_url [])
         example_world).1.
Proof.
  assert (Hin : entry_new ∈ example_feed) by (unfold example_feed; set_solver).
  split; [exact Hin|].
  apply (raising_entry_loses_section example_config naive_now example_session
           feed_url example_feed entry_new
           (lit "Wed, 05 Nov 2025 09:00:00 GMT")
           (lit "2025-11-05T04:00:00-05:00") example_world example_world).
  - vm_compute. reflexivity.
  - exact Hin.
  - vm_compute. reflexivity.
  - discriminate.
  - vm_compute. reflexivity.
  - discriminate.
  - vm_compute. reflexivity.
Defined.

Lemma deduplicate_app_disjoint_witness :
  deduplicate (take 1 deduplicate_example ++ drop 1 (take 2 deduplicate_example))
  = deduplicate (take 1 deduplicate_example)
    ++ deduplicate (drop 1 (take 2 deduplicate_example)).
Proof.
  apply deduplicate_app_disjoint. intros x y Hx Hy.
  apply list_elem_of_singleton in Hx, Hy. subst x y.
  vm_compute. discriminate.
Defined.

Lemma snapshot_size_witness :
  NoDup (map fst (sections two_sections_config))
  ∧ len (items (main two_sections_config example_now two_sections_session
                  example_world).1) <= 40.
Proof.
  assert (Hnd : NoDup (map fst (sections two_sections_config))).
  { simpl. repeat constructor; set_solver. }
  split; [exact Hnd|].
  apply (snapshot_size two_sections_config example_now two_sections_session
           example_world Hnd).
  repeat constructor; vm_compute; discriminate.
Defined.

Lemma published_takes_precedence_witness :
  is_Some (entry_baddate !! "published"%string)
  ∧ loop_body (lit "Top Stories") (lit "America/Toronto")
      (window_start example_config example_now) false example_session
      (<["updated"%string := lit "Wed, 05 Nov 2025 09:45:00 GMT"]> entry_baddate)
    = loop_body (lit "Top Stories") (lit "America/Toronto")
        (window_start example_config example_now) false example_session
        entry_baddate.
Proof.
  assert (Hp : is_Some (entry_baddate !! "published"%string))
    by (vm_compute; eauto).
  split; [exact Hp|].
  apply published_takes_precedence; [exact Hp|]. set_solver.
Defined.

Lemma summary_takes_precedence_witness :
  opt_truthy (entry_new !! "summary"%string) = true
  ∧ loop_body (lit "Top Stories") (lit "America/Toronto")
      (window_start example_config example_now) false example_session
      (<["description"%string := lit "Another text."]> entry_new)
    = loop_body (lit "Top Stories") (lit "America/Toronto")
        (window_start example_config example_now) false example_session
        entry_new.
Proof.
  assert (Hs : opt_truthy (entry_new !! "summary"%string) = true)
    by (vm_compute; reflexivity).
  split; [exact Hs|]. by apply summary_takes_precedence.
Defined.

(** The earlier variant on the run of the examples. *)
Example variants_agree_example :
  (λ it, (title it, published_at it))
    <$> items (ScraperUI.main example_config example_now example_session
                 example_world).1
  = [(lit "Budget 2025 & you", lit "2025-11-05T04:00:00-05:00");
     (lit "Edge of the window", lit "2025-11-04T10:00:00-05:00")]
  ∧ slept (ScraperUI.main example_config example_now example_session
             example_world).2 = [1%Q].
Proof. split; vm_compute; reflexivity. Qed.

Lemma extraction_only_when_needed_witness :
  summarize (summary_raw entry_new) 500 ≠ []
  ∧ loop_body (lit "Top Stories") (lit "America/Toronto")
      (window_start example_config example_now) true pages_session entry_new
    = loop_body (lit "Top Stories") (lit "America/Toronto")
        (window_start example_config example_now) false example_session
        entry_new.
Proof.
  assert (Hs : summarize (summary_raw entry_new) 500 ≠ [])
    by (vm_compute; discriminate).
  split; [exact Hs|]. apply extraction_only_when_needed. by left.
Defined.

(** With the extraction switched on and pages that answer, the entry
    without a summary gets the summary of its page. *)
Example extraction_example :
  (λ it, (title it, summary_auto it))
    <$> items (main extract_config example_now pages_session example_world).1
  = [(lit "Budget 2025 & you", lit "The budget passed. Reactions were mixed.");
     (lit "Edge of the window", lit "The full text. Of the page.")].
Proof. vm_compute. reflexivity. Qed.
